(** * chatZ: message tree builder, stream reconciler, context assembler

    A shallow embedding of the conversation logic of the chatZ front end
    (ChatArea.tsx: [buildMessageTree] and the [messageTree] memo;
    App.tsx: the streaming handlers and [handleNewChat]) together with
    the properties its specification states about them.

    JavaScript objects are shared and mutated in place: the nodes created by
    [buildMessageTree] live in a heap, and [roots], [children] and the
    [messageMap] hold references to them. *)

From Stdlib Require Import ZArith String Ascii.
From stdpp Require Import base list gmap strings relations sorting.


(** ** Data model (types.ts) *)

Inductive Role := user | assistant.

#[global] Instance Role_eq_dec : EqDecision Role.
Proof. solve_decision. Defined.

Record Message := mkMessage {
  id : Z;
  thread_id : Z;
  role : Role;
  content : string;
  images : option (list string);
  created_at : string;
  reply_to_id : option Z;
  model : option string
}.

Record Thread := mkThread {
  thread_ident : Z;
  title : string;
  thread_created_at : string;
  system_prompt : option string;
  is_archived : bool
}.

(** A reference to a node object: its address in the heap. *)
Abbreviation loc := nat.

(** [MessageNode = Message & { children: MessageNode[] }]: the children array
    holds references. *)
Record MessageNode := mkNode {
  msg : Message;
  children : list loc
}.

(** What [buildMessageTree] returns: the array of root references, and the
    objects they point into. *)
Record Forest := mkForest {
  nodes : list MessageNode;
  roots : list loc
}.

(** JavaScript truthiness of an optional number: [undefined] and [0] are
    falsy. *)
Definition truthy (o : option Z) : bool :=
  match o with
  | Some z => negb (z =? 0)%Z
  | None => false
  end.

(** ** buildMessageTree (ChatArea.tsx) *)

Definition with_reply_to_id (m : Message) (r : option Z) : Message :=
  {| id := id m; thread_id := thread_id m; role := role m;
     content := content m; images := images m; created_at := created_at m;
     reply_to_id := r; model := model m |}.

(** The callback of [messages.map((m, index) => ...)]. For [index > 0] the
    predecessor [messages[index - 1]] always exists. *)
Definition patch (messages : list Message) (index : nat) (m : Message) : Message :=
  if bool_decide (role m = assistant) && negb (truthy (reply_to_id m))
     && bool_decide (0 < index)
  then match messages !! (index - 1) with
       | Some prev =>
           if bool_decide (role prev = user)
           then with_reply_to_id m (Some (id prev))
           else m
       | None => m
       end
  else m.

Definition patchedMessages (messages : list Message) : list Message :=
  imap (patch messages) messages.

(** The mutable state of one run of [buildMessageTree]. *)
Record Build := mkBuild {
  heap : list MessageNode;
  messageMap : gmap Z loc;
  rootsB : list loc
}.

Definition emptyBuild : Build := mkBuild [] ∅ [].

(** [messageMap.set(m.id, { ...m, children: [] })]: a fresh object, and the
    map entry of [m.id] now points to it. *)
Definition setNode (s : Build) (m : Message) : Build :=
  {| heap := heap s ++ [mkNode m []];
     messageMap := <[id m := length (heap s)]> (messageMap s);
     rootsB := rootsB s |}.

(** [x.children.push(c)] on the object at [x]. *)
Definition pushChild (h : list MessageNode) (x c : loc) : list MessageNode :=
  alter (λ nd, mkNode (msg nd) (children nd ++ [c])) x h.

(** [m.reply_to_id && messageMap.has(m.reply_to_id)], returning the parent
    object when the test succeeds. *)
Definition parentRef (mm : gmap Z loc) (m : Message) : option loc :=
  if truthy (reply_to_id m) then reply_to_id m ≫= (mm !!.) else None.

(** The body of the second [forEach]. Every id was entered in the first
    loop, so [messageMap.get(m.id)!] is an object ([setNode_map_total]). *)
Definition linkNode (s : Build) (m : Message) : Build :=
  match messageMap s !! id m with
  | Some node =>
      match parentRef (messageMap s) m with
      | Some parent =>
          {| heap := pushChild (heap s) parent node;
             messageMap := messageMap s; rootsB := rootsB s |}
      | None =>
          {| heap := heap s; messageMap := messageMap s;
             rootsB := rootsB s ++ [node] |}
      end
  | None => s
  end.

Definition buildState (messages : list Message) : Build :=
  let patched := patchedMessages messages in
  foldl linkNode (foldl setNode emptyBuild patched) patched.

Definition buildMessageTree (messages : list Message) : Forest :=
  let s := buildState messages in mkForest (heap s) (rootsB s).

(** ** The messageTree memo of ChatArea: streaming graft *)

(** The [for (const node of nodes)] loop of [attachToNode]; [recur] is the
    recursive call on a children array. A reference that points at no object
    would make [node.id] throw: no result. *)
Fixpoint attachLoop (recur : list loc → option (bool * list MessageNode))
    (attachToId : Z) (streamingMsg : loc) (h : list MessageNode)
    (ns : list loc) : option (bool * list MessageNode) :=
  match ns with
  | [] => Some (false, h)
  | n :: rest =>
      match h !! n with
      | Some node =>
          if bool_decide (id (msg node) = attachToId)
          then Some (true, pushChild h n streamingMsg)
          else match recur (children node) with
               | Some (true, h') => Some (true, h')
               | Some (false, _) => attachLoop recur attachToId streamingMsg h rest
               | None => None
               end
      | None => None
      end
  end.

(** [attachToNode]: depth-first search for the first node whose id is
    [attachToId]; the streaming node is pushed onto its children. The
    recursion follows references through the heap, so the model is bounded
    by [fuel]: [None] stands for a search that does not return. *)
Fixpoint attachToNode (fuel : nat) (attachToId : Z) (streamingMsg : loc)
    (h : list MessageNode) (ns : list loc) : option (bool * list MessageNode) :=
  match fuel with
  | O => None
  | S fuel' =>
      attachLoop (attachToNode fuel' attachToId streamingMsg h)
        attachToId streamingMsg h ns
  end.

Definition streamingNode (now streamingContent : string) : MessageNode :=
  mkNode {| id := (-1)%Z; thread_id := (-1)%Z; role := assistant;
            content := streamingContent; images := None; created_at := now;
            reply_to_id := None; model := None |} [].

(** The memo body. [now] is the value of [new Date().toISOString()]. *)
Definition messageTree (fuel : nat) (now : string) (messages : list Message)
    (isStreaming : bool) (streamingContent : string) : option Forest :=
  let tree := buildMessageTree messages in
  if isStreaming then
    let streamingMsg := length (nodes tree) in
    let h := nodes tree ++ [streamingNode now streamingContent] in
    let asRoot := Some (mkForest h (roots tree ++ [streamingMsg])) in
    match last messages with
    | Some lastMessage =>
        if truthy (reply_to_id lastMessage) then
          match attachToNode fuel (id lastMessage) streamingMsg h (roots tree) with
          | Some (true, h') => Some (mkForest h' (roots tree))
          | Some (false, _) => asRoot
          | None => None
          end
        else asRoot
    | None => asRoot
    end
  else Some tree.

(** ** Reading a forest *)

(** The nodes of a forest in the order ThreadItem renders them: each node of
    the array, followed by its children recursively. [None] when the
    unfolding does not end within [fuel] levels. *)
Fixpoint eachNode (recur : list loc → option (list loc))
    (h : list MessageNode) (ns : list loc) : option (list loc) :=
  match ns with
  | [] => Some []
  | n :: rest =>
      match h !! n with
      | Some node =>
          match recur (children node), eachNode recur h rest with
          | Some below, Some after => Some (n :: below ++ after)
          | _, _ => None
          end
      | None => None
      end
  end.

Fixpoint forestNodes (fuel : nat) (h : list MessageNode) (ns : list loc)
    : option (list loc) :=
  match fuel with
  | O => None
  | S fuel' => eachNode (forestNodes fuel' h) h ns
  end.

(** [c] is an element of the children array of the object at [p]. *)
Definition child (h : list MessageNode) (p c : loc) : Prop :=
  ∃ nd, h !! p = Some nd ∧ c ∈ children nd.

(** The nodes of a forest: what can be reached from its roots. *)
Definition inForest (f : Forest) (x : loc) : Prop :=
  ∃ r, r ∈ roots f ∧ rtc (child (nodes f)) r x.

(** ** Reply structure of an input list *)

(** The data-model invariant: ids are unique within the loaded list
    (storage assigns them). *)
Definition unique_ids (messages : list Message) : Prop :=
  NoDup (id <$> messages).

(** Position of the message with id [k]. *)
Definition indexOfId (messages : list Message) (k : Z) : option nat :=
  fst <$> list_find (λ z, z = k) (id <$> messages).

(** Position of the message that message [j] replies to, by its working
    (patched) reply link; [None] when the link is absent, falsy or matches
    no loaded id. *)
Definition parentIndex (messages : list Message) (j : nat) : option nat :=
  m ← patchedMessages messages !! j;
  if truthy (reply_to_id m) then reply_to_id m ≫= indexOfId messages else None.

(** Chains of parent links. [rootedBy par N j d]: following [par] from [j]
    ends, after [d] steps, at some [r < N] without a parent. *)
Inductive rootedBy (par : nat → option nat) (N : nat) : nat → nat → Prop :=
  | rooted_top j :
      j < N → par j = None → rootedBy par N j 0
  | rooted_reply j p d :
      par j = Some p → rootedBy par N p d → rootedBy par N j (S d).

(** [rooted messages j d]: following working reply links from message [j]
    ends, after [d] steps, at a message without a parent. *)
Definition rooted (messages : list Message) : nat → nat → Prop :=
  rootedBy (parentIndex messages) (length messages).

(** No message lies on, or replies into, a cycle of working reply links. *)
Definition reply_chains_end (messages : list Message) : Prop :=
  ∀ j, j < length messages → ∃ d, rooted messages j d.

(** A heap whose children arrays and root array are exactly the links of a
    parent function on [0 .. N). *)
Record linked (h : list MessageNode) (rts : list loc)
    (par : nat → option nat) (N : nat) : Prop := mkLinked {
  linked_length : length h = N;
  linked_par_lt : ∀ j p, par j = Some p → j < N ∧ p < N;
  linked_children_nodup : ∀ p nd, h !! p = Some nd → NoDup (children nd);
  linked_children : ∀ p nd c,
    h !! p = Some nd → c ∈ children nd ↔ par c = Some p;
  linked_roots_nodup : NoDup rts;
  linked_roots : ∀ r, r ∈ rts ↔ r < N ∧ par r = None
}.

(** The first node of [ls] whose id is [k]. *)
Fixpoint findId (h : list MessageNode) (k : Z) (ls : list loc) : option loc :=
  match ls with
  | [] => None
  | x :: rest =>
      if decide ((id ∘ msg) <$> h !! x = Some k) then Some x
      else findId h k rest
  end.

(** The parent function after the streaming node [s] was pushed under [x]. *)
Definition graftPar (par : nat → option nat) (x s : loc) (c : nat) : option nat :=
  if decide (c = s) then Some x else par c.

(** The state after the first loop. *)
Definition firstPass (messages : list Message) : Build :=
  foldl setNode emptyBuild (patchedMessages messages).

(** The state after the second loop has handled the first [t] messages. *)
Definition linkedUpTo (messages : list Message) (t : nat) : Build :=
  {| heap := imap (λ i m, mkNode m
                (filter (λ j, parentIndex messages j = Some i) (seq 0 t)))
                (patchedMessages messages);
     messageMap := messageMap (firstPass messages);
     rootsB := filter (λ j, parentIndex messages j = None) (seq 0 t) |}.

(** ** The claims of the specification on the tree builder, as stated *)

(** Completeness: the node objects carry the input messages (with their
    working reply links), in order, followed by the streaming node exactly
    when streaming is active, and every node object is rendered exactly
    once. *)
Definition complete (now : string) (messages : list Message)
    (isStreaming : bool) (streamingContent : string) : Prop :=
  ∃ fuel f,
    messageTree fuel now messages isStreaming streamingContent = Some f ∧
    msg <$> nodes f
      = patchedMessages messages
        ++ (if isStreaming then [msg (streamingNode now streamingContent)] else []) ∧
    ∃ fuel' l,
      forestNodes fuel' (nodes f) (roots f) = Some l ∧
      l ≡ₚ seq 0 (length (nodes f)).

(** Streaming attachment as the testable property words it: the streaming
    node hangs under the node whose id is the last message's reply target,
    and not under the last message unless it is that target. *)
Definition graftedUnderReplyTarget (messages : list Message) (f : Forest) : Prop :=
  ∀ lastMessage k,
    last messages = Some lastMessage → reply_to_id lastMessage = Some k →
    ∀ p nd, nodes f !! p = Some nd →
      length messages ∈ children nd ↔ id (msg nd) = k.

(** ** Sample conversations *)

Definition mk (i : Z) (r : Role) (c : string) (rt : option Z) : Message :=
  mkMessage i 1%Z r c None "2025-01-01T00:00:00.000Z" rt None.

(** The scenario of the specification: a question and its direct answer. *)
Definition hiHello : list Message :=
  [mk 1 user "Hi" None; mk 2 assistant "Hello" None].

(** Two messages that name each other as parent. *)
Definition replyCycle : list Message :=
  [mk 1 user "a" (Some 2%Z); mk 2 user "b" (Some 1%Z)].

(** A reply cycle next to an ordinary exchange. *)
Definition cycleAndThread : list Message :=
  [mk 1 user "a" (Some 2%Z); mk 2 user "b" (Some 1%Z);
   mk 3 user "c" None; mk 4 assistant "d" (Some 3%Z)].

(** A thread whose last message is an explicit reply to the first. *)
Definition replyThread : list Message :=
  [mk 1 user "q" None; mk 2 assistant "a" (Some 1%Z);
   mk 3 user "follow-up" (Some 1%Z)].

(** Outside the data model: two messages share an id, and the second
    names that id as its parent. *)
Definition duplicateIds : list Message :=
  [mk 1 user "a" None; mk 1 user "b" (Some 1%Z); mk 2 user "c" (Some 9%Z)].



(** ** The application state (App.tsx) *)

Module App.

(** An awaited backend call resolves with a value or rejects. *)
Inductive Result (A : Type) : Type :=
  | Ok (a : A)
  | Rejected (e : string).
Arguments Ok {A} a.
Arguments Rejected {A} e.

(** What the handlers write to the console. *)
Inductive LogEntry :=
  | warn_fetch_context (threadId : Z) (e : string)
  | error_load_smart_context (e : string)
  | error_send_message (e : string)
  | error_regenerate (e : string)
  | error_load_messages (e : string).

(** Backend calls a handler starts and does not wait for inside one step. *)
Inductive Command :=
  | invoke_send_message (threadId : Z) (content : string)
      (images pdfs : option (list string)) (model : string)
      (replyToId : option Z)
  | invoke_regenerate_response (threadId : Z) (model : string)
  | invoke_get_messages (threadId : Z)
  | set_timeout_browser_reply (threadId : Z)
  | console (entry : LogEntry).

Record ChatMode := mkChatMode {
  mode_id : string;
  name : string;
  systemPrompt : string;
  description : string
}.

Definition CHAT_MODES : list ChatMode :=
  [ mkChatMode "general" "General Assistant"
      "You are a highly intelligent and versatile AI assistant. Your goal is to provide accurate, helpful, and concise responses to any query. You adapt your tone and depth of explanation to the user's needs. You are excellent at brainstorming, explaining concepts, summarising information, and general problem solving."
      "Versatile assistant for all-purpose tasks";
    mkChatMode "developer" "Professional Developer"
      "You are a senior software engineer and architect. You write clean, efficient, modern, and well-documented code. You follow best practices, design patterns, and solid principles. When explaining technical concepts, you are precise and clear. You always consider edge cases, error handling, and performance implications."
      "Expert coding, architecture, and technical guidance" ].

(** The [useState] cells of [App] that the conversation logic reads or
    writes. *)
Record State := mkState {
  threads : list Thread;
  activeThreadId : option Z;
  messages : list Message;
  streamingContent : string;
  isStreaming : bool;
  selectedModel : string;
  isTauriEnv : bool;
  chatMode : string;
  smartContextEnabled : bool;
  selectedContextThreadIds : list Z
}.

Definition setMessages (st : State) (v : list Message) : State :=
  mkState (threads st) (activeThreadId st) v (streamingContent st)
    (isStreaming st) (selectedModel st) (isTauriEnv st) (chatMode st)
    (smartContextEnabled st) (selectedContextThreadIds st).

Definition setStreamingContent (st : State) (v : string) : State :=
  mkState (threads st) (activeThreadId st) (messages st) v
    (isStreaming st) (selectedModel st) (isTauriEnv st) (chatMode st)
    (smartContextEnabled st) (selectedContextThreadIds st).

Definition setIsStreaming (st : State) (v : bool) : State :=
  mkState (threads st) (activeThreadId st) (messages st) (streamingContent st)
    v (selectedModel st) (isTauriEnv st) (chatMode st)
    (smartContextEnabled st) (selectedContextThreadIds st).

(** *** Stream reconciler: the handlers and listeners, one state update each *)

Inductive Event :=
  (** [handleSendMessage], up to the awaited [invoke]. *)
  | SendMessage (dateNow : Z) (isoNow : string) (content : string)
      (images pdfs : option (list string)) (replyToId : option Z)
  (** The [catch] block of [handleSendMessage]. *)
  | SendRejected (e : string)
  (** The [setTimeout] callback of browser mode. *)
  | BrowserReply (dateNow : Z) (isoNow : string) (threadId : Z)
  (** [handleRetry], up to the awaited [invoke]. *)
  | Retry
  (** The [catch] block of [handleRetry]. *)
  | RetryRejected (e : string)
  (** The ["stream-response"] listener. *)
  | StreamResponse (payload : string)
  (** The ["stream-done"] listener. *)
  | StreamDone
  (** [loadMessages]: the awaited [get_messages] resolved or rejected. *)
  | MessagesLoaded (msgs : Result (list Message)).

(** [prev.slice(0, -1)] when the last message is an assistant message. *)
Definition dropLastAssistant (prev : list Message) : list Message :=
  match last prev with
  | Some m => if bool_decide (role m = assistant)
              then take (length prev - 1) prev else prev
  | None => prev
  end.

Definition step (st : State) (ev : Event) : State * list Command :=
  match ev with
  | SendMessage dateNow isoNow content images pdfs replyToId =>
      match activeThreadId st with
      | Some threadId =>
          if truthy (Some threadId) then
            let tempMsg :=
              {| id := dateNow; thread_id := threadId; role := user;
                 content := content; images := images; created_at := isoNow;
                 reply_to_id := replyToId; model := None |} in
            let st1 := setStreamingContent
                         (setIsStreaming
                            (setMessages st (messages st ++ [tempMsg])) true)
                         "" in
            if isTauriEnv st
            then (st1, [invoke_send_message threadId content images pdfs
                          (selectedModel st) replyToId])
            else (st1, [set_timeout_browser_reply threadId])
          else (st, [])
      | None => (st, [])
      end
  | SendRejected e =>
      (setIsStreaming st false, [console (error_send_message e)])
  | BrowserReply dateNow isoNow threadId =>
      let reply :=
        {| id := (dateNow + 1)%Z; thread_id := threadId; role := assistant;
           content := "I cannot reply in browser mode. Please use the app window.";
           images := None; created_at := isoNow; reply_to_id := None;
           model := None |} in
      (setMessages (setIsStreaming st false) (messages st ++ [reply]), [])
  | Retry =>
      match activeThreadId st with
      | Some threadId =>
          if truthy (Some threadId) && negb (isStreaming st) then
            (setMessages (setStreamingContent (setIsStreaming st true) "")
               (dropLastAssistant (messages st)),
             [invoke_regenerate_response threadId (selectedModel st)])
          else (st, [])
      | None => (st, [])
      end
  | RetryRejected e =>
      (setIsStreaming st false, [console (error_regenerate e)])
  | StreamResponse payload =>
      (setStreamingContent st (streamingContent st ++ payload)%string, [])
  | StreamDone =>
      (setStreamingContent (setIsStreaming st false) "",
       match activeThreadId st with
       | Some threadId =>
           if truthy (Some threadId) then [invoke_get_messages threadId] else []
       | None => []
       end)
  | MessagesLoaded (Ok msgs) => (setMessages st msgs, [])
  | MessagesLoaded (Rejected e) => (st, [console (error_load_messages e)])
  end.

Fixpoint run (st : State) (evs : list Event) : State * list Command :=
  match evs with
  | [] => (st, [])
  | ev :: rest =>
      let '(st1, c1) := step st ev in
      let '(st2, c2) := run st1 rest in
      (st2, c1 ++ c2)
  end.

(** *** Context assembler: the smart-context part of [handleNewChat] *)

(** An [async] computation that may reject and writes to the console. *)
Definition Async (A : Type) : Type :=
  list LogEntry → Result A * list LogEntry.

#[global] Instance Async_ret : MRet Async := λ A a log, (Ok a, log).

#[global] Instance Async_bind : MBind Async := λ A B f m log,
  match m log with
  | (Ok a, log') => f a log'
  | (Rejected e, log') => (Rejected e, log')
  end.

Definition tryCatch {A} (body : Async A) (handler : string → Async A) : Async A :=
  λ log, match body log with
         | (Ok a, log') => (Ok a, log')
         | (Rejected e, log') => handler e log'
         end.

Definition consoleLog (entry : LogEntry) : Async unit :=
  λ log, (Ok tt, log ++ [entry]).

(** [arr.slice(-n)]: the last [n] elements, all of them when there are
    fewer. *)
Definition slice_last {A} (n : nat) (l : list A) : list A :=
  drop (length l - n) l.

Definition upper_ascii (a : ascii) : ascii :=
  let n := nat_of_ascii a in
  if (97 <=? n) && (n <=? 122) then ascii_of_nat (n - 32) else a.

(** [toUpperCase] on the ASCII letters role names are made of. *)
Fixpoint toUpperCase (s : string) : string :=
  match s with
  | EmptyString => EmptyString
  | String a rest => String (upper_ascii a) (toUpperCase rest)
  end.

(** The string a role is in the TypeScript union ['user' | 'assistant']. *)
Definition role_string (r : Role) : string :=
  match r with
  | user => "user"
  | assistant => "assistant"
  end.

(** The line feed of the template literals. *)
Definition nl : string := String (ascii_of_nat 10) EmptyString.

(** [`${m.role.toUpperCase()}: ${m.content}`] *)
Definition renderLine (m : Message) : string :=
  (toUpperCase (role_string (role m)) ++ ": " ++ content m)%string.

(** [(systemPrompt || "") + `\n\n[CONTEXT FROM PREVIOUS SESSION]\n${contextStr}\n[END CONTEXT]\n`]
    with [contextStr = recent.map(...).join("\n")]. *)
Definition withContext (systemPrompt : option string) (recent : list Message) : string :=
  (default "" systemPrompt ++ nl ++ nl ++ "[CONTEXT FROM PREVIOUS SESSION]" ++ nl
   ++ String.concat nl (renderLine <$> recent) ++ nl ++ "[END CONTEXT]" ++ nl)%string.

Section Assembler.
(** [getTime s] is [new Date(s).getTime()] for the timestamps storage
    produces; [get_messages t] is what the awaited
    [invoke("get_messages", { threadId: t })] settles to. *)
Variable getTime : string → Z.
Variable get_messages : Z → Result (list Message).

Definition invokeGetMessages (threadId : Z) : Async (list Message) :=
  λ log, (get_messages threadId, log).

(** [Array.prototype.sort] with the comparator
    [(a, b) => getTime(a.created_at) - getTime(b.created_at)]: the sort is
    stable, so its result is that of a stable insertion. *)
Fixpoint insertByTime (x : Message) (l : list Message) : list Message :=
  match l with
  | [] => [x]
  | y :: rest =>
      if (getTime (created_at x) <=? getTime (created_at y))%Z
      then x :: y :: rest
      else y :: insertByTime x rest
  end.

Definition sortByCreatedAt (l : list Message) : list Message :=
  foldr insertByTime [] l.

(** [contextMessages.sort(...).slice(-20)] *)
Definition recentMessages (contextMessages : list Message) : list Message :=
  slice_last 20 (sortByCreatedAt contextMessages).

(** The [for (const threadId of selectedContextThreadIds)] loop. *)
Fixpoint collectSelected (ids : list Z) (contextMessages : list Message)
    : Async (list Message) :=
  match ids with
  | [] => mret contextMessages
  | threadId :: rest =>
      pushed ← tryCatch
        (msgs ← invokeGetMessages threadId;
         mret (contextMessages ++ slice_last 5 msgs))
        (λ e, _ ← consoleLog (warn_fetch_context threadId e);
              mret contextMessages);
      collectSelected rest pushed
  end.

(** The [if (smartContextEnabled) { try { ... } catch { ... } }] block. It
    yields the new [systemPrompt] and the contents of the [messages] array,
    which [sort] reorders in place when [contextMessages] is that array. *)
Definition smartContext (st : State) (systemPrompt : option string)
    : Async (option string * list Message) :=
  tryCatch
    ('(contextMessages, aliased) ←
       (if bool_decide (0 < length (selectedContextThreadIds st)) then
          pool ← collectSelected (selectedContextThreadIds st) [];
          mret (pool, false)
        else if truthy (activeThreadId st)
                && bool_decide (0 < length (messages st)) then
          mret (messages st, true)
        else match threads st with
             | t :: _ =>
                 msgs ← invokeGetMessages (thread_ident t);
                 mret (msgs, false)
             | [] => mret ([], false)
             end);
     if bool_decide (0 < length contextMessages) then
       mret (Some (withContext systemPrompt (recentMessages contextMessages)),
             if aliased : bool then sortByCreatedAt contextMessages
             else messages st)
     else mret (systemPrompt, messages st))
    (λ e, _ ← consoleLog (error_load_smart_context e);
          mret (systemPrompt, messages st)).

(** The arguments [handleNewChat] passes to [create_thread], and the
    [messages] array afterwards; nothing when not running under Tauri. *)
Record NewChat := mkNewChat {
  newTitle : string;
  newSystemPrompt : option string;
  messagesAfter : list Message
}.

(** [CHAT_MODES.find(m => m.id === chatMode)?.systemPrompt] *)
Definition selectedModePrompt (st : State) : option string :=
  let selectedMode :=
    snd <$> list_find (λ m, mode_id m = chatMode st) CHAT_MODES in
  systemPrompt <$> selectedMode.

Definition handleNewChat (st : State) (newChatTitle : string)
    : Async (option NewChat) :=
  if negb (isTauriEnv st) then mret None
  else
    let systemPrompt := selectedModePrompt st in
    '(prompt, msgs) ←
       (if smartContextEnabled st then smartContext st systemPrompt
        else mret (systemPrompt, messages st));
    mret (Some (mkNewChat newChatTitle prompt msgs)).

(** *** Reading the assembler's result *)

(** Ascending order of creation time. *)
Definition byCreatedAt (a b : Message) : Prop :=
  (getTime (created_at a) ≤ getTime (created_at b))%Z.

(** What a configured source thread adds to the pool: the last five
    messages of its log, nothing when its fetch rejects. *)
Definition contribution (threadId : Z) : list Message :=
  match get_messages threadId with
  | Ok msgs => slice_last 5 msgs
  | Rejected _ => []
  end.

(** The warning a rejected fetch leaves on the console. *)
Definition fetchWarning (threadId : Z) : option LogEntry :=
  match get_messages threadId with
  | Ok _ => None
  | Rejected e => Some (warn_fetch_context threadId e)
  end.

(** The system prompt seeded from a candidate pool: unchanged when the pool
    is empty. *)
Definition seededPrompt (systemPrompt : option string) (pool : list Message)
    : option string :=
  match pool with
  | [] => systemPrompt
  | _ :: _ => Some (withContext systemPrompt (recentMessages pool))
  end.
End Assembler.

(** *** Sample states *)

Definition idle : State :=
  {| threads := [mkThread 7 "New Chat" "2025-01-01T00:00:00.000Z" None false];
     activeThreadId := Some 7%Z;
     messages := hiHello;
     streamingContent := "";
     isStreaming := false;
     selectedModel := "qwen3-vl";
     isTauriEnv := true;
     chatMode := "general";
     smartContextEnabled := true;
     selectedContextThreadIds := [] |}.

(** Three source threads of eight messages each, their logs interleaved in
    time, and a backend that knows only these. *)
Definition digit (n : nat) : string :=
  String (ascii_of_nat (48 + n)) EmptyString.

Definition sampleMessage (t : Z) (i : nat) : Message :=
  {| id := (t * 100 + Z.of_nat i)%Z; thread_id := t;
     role := if Nat.even i then user else assistant;
     content := ("message " ++ digit i)%string; images := None;
     created_at := ("2025-01-01T00:0" ++ digit i ++ ":0"
                    ++ digit (Z.to_nat t) ++ ".000Z")%string;
     reply_to_id := None; model := None |}.

Definition sampleLog (t : Z) : list Message := sampleMessage t <$> seq 0 8.

Definition sampleBackend (t : Z) : Result (list Message) :=
  if bool_decide (t ∈ [1%Z; 2%Z; 3%Z]) then Ok (sampleLog t)
  else Rejected "no such thread".

(** A clock for fixed-width timestamps: the number their digits spell. *)
Definition sampleClock (s : string) : Z :=
  fold_left (λ acc a,
      let n := nat_of_ascii a in
      if (48 <=? n) && (n <=? 57) then (acc * 10 + Z.of_nat (n - 48))%Z
      else acc)
    (list_ascii_of_string s) 0%Z.

Definition withSources (ids : list Z) : State :=
  mkState (threads idle) (activeThreadId idle) (messages idle)
    (streamingContent idle) (isStreaming idle) (selectedModel idle)
    (isTauriEnv idle) (chatMode idle) true ids.

(** A send whose backend call rejects after two deltas were delivered. *)
Definition failedSend : list Event :=
  [SendMessage 1700000000000 "2025-01-01T00:01:00.000Z" "And then?" None None None;
   StreamResponse "par"; StreamResponse "tial";
   SendRejected "connection lost"].

End App.

(** ** Conversations as storage produces them *)

(** Every stored reply link that matches a loaded message matches an earlier
    one: a message can only reply to what was already there. *)
Definition replies_point_back (messages : list Message) : Prop :=
  ∀ j m p,
    messages !! j = Some m → truthy (reply_to_id m) = true →
    reply_to_id m ≫= indexOfId messages = Some p → p < j.

(** A conversation without explicit replies. *)
Definition plain_chat (messages : list Message) : Prop :=
  ∀ m, m ∈ messages → reply_to_id m = None ∧ id m ≠ 0%Z.

(** Message [j] is an assistant message directly after a user message. *)
Definition answers_previous (messages : list Message) (j : nat) : Prop :=
  ∃ prev m, 0 < j ∧ messages !! (j - 1) = Some prev ∧ messages !! j = Some m ∧
            role prev = user ∧ role m = assistant.

(** ** More of App.tsx: regenerate, edit, thread list, confirmation dialog *)

Module Ui.

(** [prev.findIndex(m => m.id === messageId)]; [None] is [-1]. *)
Definition findIndex (prev : list Message) (messageId : Z) : option nat :=
  fst <$> list_find (λ m, id m = messageId) prev.

(** The updater of [handleRegenerateResponse]: drop the message and all
    later ones. *)
Definition regenerateFrom (prev : list Message) (messageId : Z) : list Message :=
  match findIndex prev messageId with
  | Some index => take index prev
  | None => prev
  end.

Definition with_content (m : Message) (c : string) : Message :=
  {| id := id m; thread_id := thread_id m; role := role m;
     content := c; images := images m; created_at := created_at m;
     reply_to_id := reply_to_id m; model := model m |}.

(** The updater of [handleEdit]: keep up to the edited message and replace
    its content. *)
Definition editAt (prev : list Message) (messageId : Z) (newContent : string)
    : list Message :=
  match findIndex prev messageId with
  | Some index =>
      alter (λ m, with_content m newContent) index (take (S index) prev)
  | None => prev
  end.

Inductive Command :=
  | app_command (c : App.Command)
  | invoke_regenerate_from_message (threadId messageId : Z) (model : string)
  | invoke_edit_message (threadId messageId : Z) (newContent model : string)
  | console_error_edit (e : string).

Inductive Event :=
  (** The handlers and listeners of the stream reconciler. *)
  | app_event (ev : App.Event)
  (** [handleRegenerateResponse], up to the awaited [invoke]. *)
  | Regenerate (messageId : Z) (model : string)
  (** Its [catch] block; [threadId] is the [activeThreadId] the handler
      closed over. *)
  | RegenerateRejected (threadId : Z) (e : string)
  (** [handleEdit], up to the awaited [invoke]. *)
  | Edit (messageId : Z) (newContent : string)
  (** Its [catch] block. *)
  | EditRejected (e : string).

Definition step (st : App.State) (ev : Event) : App.State * list Command :=
  match ev with
  | app_event ev =>
      let '(st', cmds) := App.step st ev in (st', app_command <$> cmds)
  | Regenerate messageId model =>
      match App.activeThreadId st with
      | Some threadId =>
          if truthy (Some threadId) && negb (App.isStreaming st) then
            (App.setMessages
               (App.setStreamingContent (App.setIsStreaming st true) "")
               (regenerateFrom (App.messages st) messageId),
             [invoke_regenerate_from_message threadId messageId model])
          else (st, [])
      | None => (st, [])
      end
  | RegenerateRejected threadId e =>
      (App.setIsStreaming st false,
       [app_command (App.console (App.error_regenerate e));
        app_command (App.invoke_get_messages threadId)])
  | Edit messageId newContent =>
      match App.activeThreadId st with
      | Some threadId =>
          if truthy (Some threadId) && negb (App.isStreaming st) then
            (App.setMessages
               (App.setStreamingContent (App.setIsStreaming st true) "")
               (editAt (App.messages st) messageId newContent),
             [invoke_edit_message threadId messageId newContent
                (App.selectedModel st)])
          else (st, [])
      | None => (st, [])
      end
  | EditRejected e =>
      (App.setIsStreaming st false, [console_error_edit e])
  end.


(** *** Thread list *)

(** [threads.map(t => t.id === threadId ? { ...t, title: newTitle } : t)]
    of [handleRenameThread]. *)
Definition renameIn (threads : list Thread) (threadId : Z) (newTitle : string)
    : list Thread :=
  (λ t, if bool_decide (thread_ident t = threadId)
        then mkThread (thread_ident t) newTitle (thread_created_at t)
               (system_prompt t) (is_archived t)
        else t) <$> threads.

(** [prev.filter(t => t.id !== threadId)] of the delete confirmation. *)
Definition removeThread (prev : list Thread) (threadId : Z) : list Thread :=
  filter (λ t, thread_ident t ≠ threadId) prev.

(** *** Confirmation dialog *)

(** The closures stored in [modalConfig.onConfirm]. *)
Inductive ConfirmAction :=
  (** [() => { }], the initial value. *)
  | doNothing
  (** Set by the Sidebar's [onDeleteThread] prop: calls
      [handleDeleteThread(id)], then closes the dialog. *)
  | confirmSidebarDelete (threadId : Z)
  (** Set by [handleDeleteThread]: awaits [delete_thread]. *)
  | confirmDeleteThread (threadId : Z)
  (** Set by [handleDeleteMessage]: awaits [delete_message] for the thread
      that was active. *)
  | confirmDeleteMessage (threadId messageId : Z).

Record ModalConfig := mkModal {
  isOpen : bool;
  modalTitle : string;
  modalMessage : string;
  onConfirm : ConfirmAction
}.

Definition closeModal (prev : ModalConfig) : ModalConfig :=
  mkModal false (modalTitle prev) (modalMessage prev) (onConfirm prev).

Definition initialModal : ModalConfig := mkModal false "" "" doNothing.

Definition deleteChatModal (action : ConfirmAction) : ModalConfig :=
  mkModal true "Delete Chat"
    "Are you sure you want to delete this chat? This action cannot be undone."
    action.

Definition deleteMessageModal (action : ConfirmAction) : ModalConfig :=
  mkModal true "Delete Message"
    "Are you sure you want to delete this message? This will also delete all subsequent messages."
    action.

Record Shell := mkShell {
  shellThreads : list Thread;
  shellActive : option Z;
  shellMessages : list Message;
  modalConfig : ModalConfig
}.

Inductive ShellCommand :=
  | invoke_delete_thread (threadId : Z)
  | invoke_delete_message (threadId messageId : Z)
  | load_messages (threadId : Z)
  | alert (text : string).

Inductive ShellEvent :=
  (** The trash button of a Sidebar row. *)
  | SidebarDelete (threadId : Z)
  (** [handleDeleteMessage], reached from a message's menu. *)
  | DeleteMessage (messageId : Z)
  (** The dialog's Delete button; it is only rendered while [isOpen]. *)
  | Confirm
  (** The dialog's Cancel button. *)
  | Cancel
  (** The awaited [delete_thread] settled; [capturedActive] is the
      [activeThreadId] the closure compares with. *)
  | DeleteThreadSettled (threadId : Z) (capturedActive : option Z)
      (r : App.Result unit)
  (** The awaited [delete_message] settled. *)
  | DeleteMessageSettled (threadId : Z) (r : App.Result unit).

Definition withModal (sh : Shell) (m : ModalConfig) : Shell :=
  mkShell (shellThreads sh) (shellActive sh) (shellMessages sh) m.

Definition shellStep (sh : Shell) (ev : ShellEvent) : Shell * list ShellCommand :=
  match ev with
  | SidebarDelete threadId =>
      (withModal sh (deleteChatModal (confirmSidebarDelete threadId)), [])
  | DeleteMessage messageId =>
      match shellActive sh with
      | Some threadId =>
          if truthy (Some threadId) then
            (withModal sh
               (deleteMessageModal (confirmDeleteMessage threadId messageId)), [])
          else (sh, [])
      | None => (sh, [])
      end
  | Confirm =>
      if isOpen (modalConfig sh) then
        match onConfirm (modalConfig sh) with
        | doNothing => (sh, [])
        | confirmSidebarDelete threadId =>
            (withModal sh
               (closeModal (deleteChatModal (confirmDeleteThread threadId))), [])
        | confirmDeleteThread threadId => (sh, [invoke_delete_thread threadId])
        | confirmDeleteMessage threadId messageId =>
            (sh, [invoke_delete_message threadId messageId])
        end
      else (sh, [])
  | Cancel => (withModal sh (closeModal (modalConfig sh)), [])
  | DeleteThreadSettled threadId capturedActive (App.Ok _) =>
      if bool_decide (capturedActive = Some threadId) then
        (mkShell (removeThread (shellThreads sh) threadId) None []
           (closeModal (modalConfig sh)), [])
      else
        (mkShell (removeThread (shellThreads sh) threadId) (shellActive sh)
           (shellMessages sh) (closeModal (modalConfig sh)), [])
  | DeleteThreadSettled threadId _ (App.Rejected e) =>
      (withModal sh (closeModal (modalConfig sh)),
       [alert ("Failed to delete thread: " ++ e)%string])
  | DeleteMessageSettled threadId (App.Ok _) =>
      (withModal sh (closeModal (modalConfig sh)), [load_messages threadId])
  | DeleteMessageSettled threadId (App.Rejected e) =>
      (withModal sh (closeModal (modalConfig sh)),
       [alert ("Failed to delete message: " ++ e)%string])
  end.

Fixpoint shellRun (sh : Shell) (evs : list ShellEvent) : Shell * list ShellCommand :=
  match evs with
  | [] => (sh, [])
  | ev :: rest =>
      let '(sh1, c1) := shellStep sh ev in
      let '(sh2, c2) := shellRun sh1 rest in
      (sh2, c1 ++ c2)
  end.

Definition isDeleteThread (c : ShellCommand) : Prop :=
  match c with invoke_delete_thread _ => True | _ => False end.

(** While the dialog is open its confirm closure is not the one that
    deletes a thread. *)
Definition neverArmed (sh : Shell) : Prop :=
  isOpen (modalConfig sh) = true →
  ∀ threadId, onConfirm (modalConfig sh) ≠ confirmDeleteThread threadId.

(** *** ContextConfigModal: choosing source threads *)

(** [prev.includes(id) ? prev.filter(tid => tid !== id) : [...prev, id]] *)
Definition toggleThread (prev : list Z) (threadId : Z) : list Z :=
  if bool_decide (threadId ∈ prev) then filter (λ tid, tid ≠ threadId) prev
  else prev ++ [threadId].

End Ui.

(** ** The message composer of ChatArea *)

Module Composer.

Inductive AttachmentType := image | pdf.

#[global] Instance AttachmentType_eq_dec : EqDecision AttachmentType.
Proof. solve_decision. Defined.

Record Attachment := mkAttachment {
  att_type : AttachmentType;
  att_content : string;
  att_name : string
}.

Record Composer := mkComposer {
  input : string;
  attachments : list Attachment;
  replyingTo : option Message
}.

(** The arguments of an [onSendMessage] call. An array element is [None]
    where [split(',')[1]] is [undefined]. *)
Record SendArgs := mkSendArgs {
  sendContent : string;
  sendImages : option (list (option string));
  sendPdfs : option (list (option string));
  sendReplyToId : option Z
}.

(** [s.split(',')] *)
Fixpoint splitComma (s : string) : list string :=
  match s with
  | EmptyString => [EmptyString]
  | String a rest =>
      match splitComma rest with
      | seg :: segs =>
          if Ascii.eqb a "," then EmptyString :: seg :: segs
          else String a seg :: segs
      | [] => [String a EmptyString]
      end
  end.

(** [attachments.filter(a => a.type === ty).map(a => a.content.split(',')[1])] *)
Definition payloads (ty : AttachmentType) (atts : list Attachment)
    : list (option string) :=
  (λ a, splitComma (att_content a) !! 1)
    <$> filter (λ a, att_type a = ty) atts.

(** [xs.length > 0 ? xs : undefined] *)
Definition nonEmpty {A} (xs : list A) : option (list A) :=
  if bool_decide (0 < length xs) then Some xs else None.

Definition sendArgs (c : Composer) : SendArgs :=
  mkSendArgs (input c) (nonEmpty (payloads image (attachments c)))
    (nonEmpty (payloads pdf (attachments c))) (id <$> replyingTo c).

Definition cleared : Composer := mkComposer "" [] None.

(** [prev.filter((_, i) => i !== index)] *)
Fixpoint filterIndex {A} (keep : nat → bool) (i : nat) (l : list A) : list A :=
  match l with
  | [] => []
  | x :: rest =>
      if keep i then x :: filterIndex keep (S i) rest
      else filterIndex keep (S i) rest
  end.

Definition removeAttachment (index : nat) (prev : list Attachment)
    : list Attachment :=
  filterIndex (λ i, negb (i =? index)) 0 prev.

Section Handlers.
(** [trim s] is [s.trim()]. *)
Variable trim : string → string.

Definition handleSubmit (isStreaming : bool) (c : Composer)
    : Composer * option SendArgs :=
  if (bool_decide (trim (input c) = ""%string)
      && bool_decide (length (attachments c) = 0))
     || isStreaming
  then (c, None)
  else (cleared, Some (sendArgs c)).

Definition handleKeyDown (key : string) (shiftKey isStreaming : bool)
    (c : Composer) : Composer * option SendArgs :=
  if bool_decide (key = "Enter"%string) && negb shiftKey then
    if (negb (bool_decide (trim (input c) = ""%string))
        || bool_decide (0 < length (attachments c)))
       && negb isStreaming
    then (cleared, Some (sendArgs c))
    else (c, None)
  else (c, None).
End Handlers.

End Composer.

(** * Properties *)

(** ** The inference pass *)

Lemma patch_id messages i m : id (patch messages i m) = id m.
Proof.
  unfold patch. repeat case_match; done.
Qed.

Lemma patch_role messages i m : role (patch messages i m) = role m.
Proof.
  unfold patch. repeat case_match; done.
Qed.

Lemma patchedMessages_lookup messages i :
  patchedMessages messages !! i = patch messages i <$> messages !! i.
Proof. unfold patchedMessages. apply list_lookup_imap. Qed.

Lemma patchedMessages_length messages :
  length (patchedMessages messages) = length messages.
Proof. unfold patchedMessages. apply length_imap. Qed.

Lemma patchedMessages_ids messages :
  id <$> patchedMessages messages = id <$> messages.
Proof.
  apply list_eq. intros i.
  rewrite !list_lookup_fmap, patchedMessages_lookup.
  destruct (messages !! i); simpl; [|done].
  by rewrite patch_id.
Qed.

(** ** The first pass: one object per message *)

Lemma setNode_heap s P :
  heap (foldl setNode s P) = heap s ++ ((λ m, mkNode m []) <$> P).
Proof.
  revert s. induction P as [|m P IH]; intros s; simpl.
  - by rewrite app_nil_r.
  - rewrite IH. simpl. by rewrite <- app_assoc.
Qed.

Lemma setNode_roots s P : rootsB (foldl setNode s P) = rootsB s.
Proof.
  revert s. induction P as [|m P IH]; intros s; simpl; [done|].
  by rewrite IH.
Qed.

(** Every entry of the map points at an object carrying the entry's key. *)
Lemma setNode_map_sound P k i :
  messageMap (foldl setNode emptyBuild P) !! k = Some i →
  ∃ m, P !! i = Some m ∧ id m = k.
Proof.
  revert k i. induction P as [|m P IH] using rev_ind; intros k i.
  - simpl. by rewrite lookup_empty.
  - rewrite foldl_snoc. simpl.
    rewrite setNode_heap. simpl. rewrite length_fmap.
    destruct (decide (id m = k)) as [<-|Hne].
    + rewrite lookup_insert_eq. intros [= <-].
      exists m. split; [|done].
      by rewrite lookup_app_r, Nat.sub_diag by lia.
    + rewrite lookup_insert_ne by done.
      intros (m' & Hm' & Hid)%IH.
      exists m'. split; [|done].
      rewrite lookup_app_l; [done|]. by eapply lookup_lt_Some.
Qed.

(** [messageMap.get(m.id)!] is never [undefined] in the second loop. *)
Lemma setNode_map_total P i m :
  P !! i = Some m → is_Some (messageMap (foldl setNode emptyBuild P) !! id m).
Proof.
  revert i m. induction P as [|x P IH] using rev_ind; intros i m Hi; [done|].
  rewrite foldl_snoc. simpl.
  destruct (decide (id x = id m)) as [->|Hne].
  - rewrite lookup_insert_eq. eauto.
  - rewrite lookup_insert_ne by done.
    apply lookup_app_Some in Hi as [Hi|[_ Hi]]; [by eapply IH|].
    destruct (i - length P); simplify_eq/=.
Qed.

(** With unique ids the entry of a message's id points at its own object. *)
Lemma setNode_map_own P i m :
  NoDup (id <$> P) → P !! i = Some m →
  messageMap (foldl setNode emptyBuild P) !! id m = Some i.
Proof.
  revert i m. induction P as [|x P IH] using rev_ind; intros i m Hnd Hi.
  - done.
  - rewrite foldl_snoc. simpl.
    rewrite setNode_heap. simpl. rewrite length_fmap.
    rewrite fmap_app in Hnd. apply NoDup_app in Hnd as (Hnd & Hfresh & _).
    apply lookup_app_Some in Hi as [Hi|[Hlen Hi]].
    + rewrite lookup_insert_ne; [by apply IH|].
      intros Heq. apply (Hfresh (id m)).
      * apply list_elem_of_fmap. exists m. split; [done|].
        by eapply list_elem_of_lookup_2.
      * simpl. rewrite <- Heq. set_solver.
    + destruct (i - length P) as [|?] eqn:E; simpl in Hi; [|done].
      injection Hi as <-. assert (i = length P) as -> by lia.
      apply lookup_insert_eq.
Qed.

Lemma firstPass_indexOfId messages k :
  unique_ids messages →
  messageMap (firstPass messages) !! k = indexOfId messages k.
Proof.
  intros Hnd. unfold indexOfId, firstPass.
  destruct (list_find _ _) as [[i z]|] eqn:E; simpl.
  - apply list_find_Some in E as (Hi & -> & _).
    rewrite <- patchedMessages_ids, list_lookup_fmap in Hi.
    destruct (patchedMessages messages !! i) as [m|] eqn:Hm; [|done].
    injection Hi as <-. apply setNode_map_own; [|done].
    by rewrite patchedMessages_ids.
  - apply list_find_None in E.
    destruct (messageMap _ !! k) as [i|] eqn:Hk; [|done].
    apply setNode_map_sound in Hk as (m & Hm & Hid).
    exfalso. rewrite Forall_forall in E. apply (E k); [|done].
    rewrite <- patchedMessages_ids. apply list_elem_of_fmap.
    exists m. split; [done|]. by eapply list_elem_of_lookup_2.
Qed.

Lemma firstPass_own messages i m :
  unique_ids messages → patchedMessages messages !! i = Some m →
  messageMap (firstPass messages) !! id m = Some i.
Proof.
  intros Hnd Hm. apply setNode_map_own; [|done].
  by rewrite patchedMessages_ids.
Qed.

Lemma parentRef_parentIndex messages j m :
  unique_ids messages → patchedMessages messages !! j = Some m →
  parentRef (messageMap (firstPass messages)) m = parentIndex messages j.
Proof.
  intros Hnd Hm. unfold parentRef, parentIndex. rewrite Hm. simpl.
  destruct (truthy _); [|done].
  destruct (reply_to_id m) as [k|]; [|done]. simpl.
  by apply firstPass_indexOfId.
Qed.

Lemma indexOfId_Some messages k i :
  indexOfId messages k = Some i → ∃ m, messages !! i = Some m ∧ id m = k.
Proof.
  unfold indexOfId. destruct (list_find _ _) as [[i' z]|] eqn:E; [|done].
  simpl. intros [= ->].
  apply list_find_Some in E as (Hi & -> & _).
  rewrite list_lookup_fmap in Hi.
  destruct (messages !! i) as [m|]; [|done].
  injection Hi as <-. by exists m.
Qed.

Lemma parentIndex_lt messages j p :
  parentIndex messages j = Some p → j < length messages ∧ p < length messages.
Proof.
  unfold parentIndex. intros H.
  destruct (patchedMessages messages !! j) as [m|] eqn:Hm; [|done].
  simpl in H. split.
  - rewrite <- patchedMessages_length. by eapply lookup_lt_Some.
  - destruct (truthy _); [|done].
    destruct (reply_to_id m) as [k|]; [|done]. simpl in H.
    apply indexOfId_Some in H as (m' & Hm' & _). by eapply lookup_lt_Some.
Qed.

(** ** The second pass in closed form *)

Lemma linkNode_take messages t :
  unique_ids messages → t ≤ length messages →
  foldl linkNode (firstPass messages) (take t (patchedMessages messages))
  = linkedUpTo messages t.
Proof.
  intros Hnd. induction t as [|t IH]; intros Ht.
  - simpl. unfold linkedUpTo. simpl.
    pose proof (setNode_heap emptyBuild (patchedMessages messages)) as Hh.
    pose proof (setNode_roots emptyBuild (patchedMessages messages)) as Hr.
    fold (firstPass messages) in Hh, Hr. simpl in Hh, Hr.
    destruct (firstPass messages) as [h mm r]. simpl in *. subst h r.
    f_equal. apply list_eq. intros i.
    by rewrite list_lookup_fmap, list_lookup_imap.
  - destruct (lookup_lt_is_Some_2 (patchedMessages messages) t) as [m Hm].
    { rewrite patchedMessages_length. lia. }
    rewrite (take_S_r _ _ _ Hm), foldl_snoc, IH by lia.
    unfold linkNode, linkedUpTo. cbn [heap messageMap rootsB].
    rewrite (firstPass_own _ t m), (parentRef_parentIndex _ t) by done.
    rewrite seq_S. cbn [Nat.add].
    destruct (parentIndex messages t) as [p|] eqn:Hp.
    + f_equal.
      * apply list_eq. intros i. unfold pushChild.
        rewrite !list_lookup_imap.
        destruct (decide (i = p)) as [->|Hne].
        -- rewrite list_lookup_alter_eq, list_lookup_imap.
           destruct (patchedMessages messages !! p); simpl; [|done].
           rewrite filter_app, filter_cons_True by done. done.
        -- rewrite list_lookup_alter_ne, list_lookup_imap by done.
           destruct (patchedMessages messages !! i); simpl; [|done].
           rewrite filter_app, filter_cons_False by congruence.
           by rewrite filter_nil, app_nil_r.
      * rewrite filter_app, filter_cons_False by congruence.
        by rewrite filter_nil, app_nil_r.
    + f_equal.
      * apply list_eq. intros i. rewrite !list_lookup_imap.
        destruct (patchedMessages messages !! i); simpl; [|done].
        rewrite filter_app, filter_cons_False by congruence.
        by rewrite filter_nil, app_nil_r.
      * by rewrite filter_app, filter_cons_True by done.
Qed.

Lemma buildState_closed messages :
  unique_ids messages →
  buildState messages = linkedUpTo messages (length messages).
Proof.
  intros Hnd. unfold buildState.
  rewrite <- (linkNode_take messages (length messages)) by done.
  rewrite <- (patchedMessages_length messages) at 1.
  by rewrite firstn_all.
Qed.

Lemma build_nodes_lookup messages i :
  unique_ids messages →
  nodes (buildMessageTree messages) !! i
  = (λ m, mkNode m (filter (λ j, parentIndex messages j = Some i)
                      (seq 0 (length messages))))
    <$> patchedMessages messages !! i.
Proof.
  intros Hnd. unfold buildMessageTree. simpl.
  rewrite buildState_closed by done. simpl.
  by rewrite list_lookup_imap.
Qed.

Lemma build_nodes_length messages :
  unique_ids messages →
  length (nodes (buildMessageTree messages)) = length messages.
Proof.
  intros Hnd. unfold buildMessageTree. simpl.
  rewrite buildState_closed by done. simpl.
  by rewrite length_imap, patchedMessages_length.
Qed.

Lemma build_roots messages :
  unique_ids messages →
  roots (buildMessageTree messages)
  = filter (λ j, parentIndex messages j = None) (seq 0 (length messages)).
Proof.
  intros Hnd. unfold buildMessageTree. simpl.
  by rewrite buildState_closed.
Qed.

(** In the built heap the children arrays are exactly the reply links. *)
Lemma build_child_iff messages p c :
  unique_ids messages →
  child (nodes (buildMessageTree messages)) p c
  ↔ parentIndex messages c = Some p.
Proof.
  intros Hnd. unfold child. split.
  - intros (nd & Hp & Hc). rewrite build_nodes_lookup in Hp by done.
    destruct (patchedMessages messages !! p) as [m|]; simpl in Hp; [|done].
    injection Hp as <-. simpl in Hc.
    by apply list_elem_of_filter in Hc as [Hc _].
  - intros Hc. destruct (parentIndex_lt _ _ _ Hc) as [Hlc Hlp].
    destruct (lookup_lt_is_Some_2 (patchedMessages messages) p) as [m Hm].
    { by rewrite patchedMessages_length. }
    exists (mkNode m (filter (λ j, parentIndex messages j = Some p)
                        (seq 0 (length messages)))).
    rewrite build_nodes_lookup by done. rewrite Hm. split; [done|].
    simpl. apply list_elem_of_filter. split; [done|].
    apply elem_of_seq. lia.
Qed.

Lemma build_root_iff messages r :
  unique_ids messages →
  r ∈ roots (buildMessageTree messages)
  ↔ r < length messages ∧ parentIndex messages r = None.
Proof.
  intros Hnd. rewrite build_roots by done.
  rewrite list_elem_of_filter, elem_of_seq. split; intros []; split; done || lia.
Qed.

(** ** Heaps linked by a parent function *)

Section Linked.
Context {h : list MessageNode} {rts : list nat}
        {par : nat → option nat} {N : nat}.
Hypothesis HL : linked h rts par N.

Lemma linked_child p c : child h p c ↔ par c = Some p.
Proof.
  split.
  - intros (nd & Hp & Hc). by eapply linked_children.
  - intros Hc. destruct (linked_par_lt _ _ _ _ HL _ _ Hc) as [_ Hp].
    destruct (lookup_lt_is_Some_2 h p) as [nd Hnd].
    { by rewrite (linked_length _ _ _ _ HL). }
    exists nd. split; [done|]. by eapply linked_children.
Qed.

Lemma rootedBy_lt j d : rootedBy par N j d → j < N.
Proof.
  destruct 1 as [j Hj _|j p d Hp _]; [done|].
  by apply (linked_par_lt _ _ _ _ HL) in Hp as [? _].
Qed.

Lemma rootedBy_fun j d1 d2 :
  rootedBy par N j d1 → rootedBy par N j d2 → d1 = d2.
Proof.
  intros H1. revert d2.
  induction H1 as [j Hj Hp|j p d Hp _ IH]; intros d2 H2.
  - destruct H2 as [|? ? ? Hp' _]; [done|congruence].
  - destruct H2 as [? ? Hp'|? p' d' Hp' H2]; [congruence|].
    assert (p' = p) as -> by congruence. f_equal. by apply IH.
Qed.

(** The chain from a rooted node up to its root. *)
Lemma rootedBy_chain j d :
  rootedBy par N j d →
  ∃ l : list nat, length l = S d ∧
    ∀ t x, l !! t = Some x → rootedBy par N x (d - t).
Proof.
  induction 1 as [j Hj Hp|j p d Hp Hr (l & Hlen & Hl)].
  - exists [j]. split; [done|]. intros [|t] x; simpl; [|done].
    intros [= <-]. by constructor.
  - exists (j :: l). split; [simpl; lia|]. intros [|t] x; simpl.
    + intros [= <-]. by econstructor.
    + apply Hl.
Qed.

(** A chain cannot revisit a node, so it is shorter than the heap. *)
Lemma rootedBy_depth_lt j d : rootedBy par N j d → d < N.
Proof.
  intros (l & Hlen & Hl)%rootedBy_chain.
  assert (NoDup l) as Hnd.
  { apply NoDup_alt. intros a b x Ha Hb.
    pose proof (lookup_lt_Some _ _ _ Ha). pose proof (lookup_lt_Some _ _ _ Hb).
    pose proof (rootedBy_fun _ _ _ (Hl _ _ Ha) (Hl _ _ Hb)). lia. }
  assert (l ⊆+ seq 0 N) as Hsub.
  { apply NoDup_submseteq; [done|]. intros x [t Ht]%list_elem_of_lookup_1.
    apply elem_of_seq. pose proof (rootedBy_lt _ _ (Hl _ _ Ht)). lia. }
  apply submseteq_length in Hsub. rewrite length_seq in Hsub. lia.
Qed.

Lemma nsteps_rootedBy k a z d :
  nsteps (child h) k a z → rootedBy par N a d → rootedBy par N z (d + k).
Proof.
  intros Hk. revert d. induction Hk as [x|n x y z Hxy _ IH]; intros d Hd.
  - by rewrite Nat.add_0_r.
  - rewrite Nat.add_succ_r. apply (IH (S d)).
    apply linked_child in Hxy. by econstructor.
Qed.

Lemma nsteps_ancestor k a b z :
  nsteps (child h) k a z → nsteps (child h) k b z → a = b.
Proof.
  revert z. induction k as [|k IH]; intros z Ha Hb.
  - inversion Ha. inversion Hb. congruence.
  - apply nsteps_inv_r in Ha as (ya & Ha & Hya).
    apply nsteps_inv_r in Hb as (yb & Hb & Hyb).
    apply linked_child in Hya, Hyb.
    assert (ya = yb) as -> by congruence. by eapply IH.
Qed.

Lemma same_level_ancestor a b z d :
  rootedBy par N a d → rootedBy par N b d →
  rtc (child h) a z → rtc (child h) b z → a = b.
Proof.
  intros Ha Hb [ka Hka]%rtc_nsteps [kb Hkb]%rtc_nsteps.
  pose proof (rootedBy_fun _ _ _ (nsteps_rootedBy _ _ _ _ Hka Ha)
                (nsteps_rootedBy _ _ _ _ Hkb Hb)).
  assert (ka = kb) as -> by lia. by eapply nsteps_ancestor.
Qed.

Lemma rootedBy_acyclic x d :
  rootedBy par N x d → ¬ tc (child h) x x.
Proof.
  intros Hd (n & Hn & Hsteps)%tc_nsteps.
  pose proof (rootedBy_fun _ _ _ Hd (nsteps_rootedBy _ _ _ _ Hsteps Hd)). lia.
Qed.

(** The nodes of the forest are the rooted ones. *)
Lemma inForest_rootedBy x :
  inForest (mkForest h rts) x → ∃ d, rootedBy par N x d.
Proof.
  intros (r & Hr & Hpath). simpl in *. revert x Hpath.
  apply rtc_ind_r; [|intros y z Hry Hyz [d IH]].
  - apply (linked_roots _ _ _ _ HL) in Hr as [? ?]. exists 0. by constructor.
  - apply linked_child in Hyz. exists (S d). by econstructor.
Qed.

Lemma rootedBy_inForest x d :
  rootedBy par N x d → inForest (mkForest h rts) x.
Proof.
  induction 1 as [j Hj Hp|j p d Hp _ (r & Hr & Hpath)].
  - exists j. split; [|done]. by apply (linked_roots _ _ _ _ HL).
  - exists r. split; [done|]. eapply rtc_r; [done|].
    by apply linked_child.
Qed.

(** Rendering a level of the forest ends, visits nothing twice, and visits
    exactly what lies below that level. *)
Lemma forestNodes_level fuel d ls :
  d ≤ N → N < fuel + d → NoDup ls →
  (∀ x, x ∈ ls → rootedBy par N x d) →
  ∃ l, forestNodes fuel h ls = Some l ∧ NoDup l ∧
       ∀ z, z ∈ l ↔ ∃ x, x ∈ ls ∧ rtc (child h) x z.
Proof.
  revert d ls. induction fuel as [|fuel IH]; intros d ls Hd Hfuel; [lia|].
  simpl. induction ls as [|x rest IHls]; intros Hnd Hroot.
  - exists []. split; [done|]. split; [constructor|].
    intros z. split; [by intros ?%elem_of_nil|by intros (? & ?%elem_of_nil & _)].
  - apply NoDup_cons in Hnd as [Hx Hnd].
    assert (rootedBy par N x d) as Hxd by (apply Hroot, elem_of_cons; by left).
    pose proof (rootedBy_lt _ _ Hxd) as HxN.
    pose proof (rootedBy_depth_lt _ _ Hxd) as HdN.
    destruct (lookup_lt_is_Some_2 h x) as [nd Hlook].
    { by rewrite (linked_length _ _ _ _ HL). }
    destruct (IH (S d) (children nd)) as (below & Hb & Hndb & Hmemb);
      [lia|lia|by eapply linked_children_nodup| |].
    { intros c Hc. econstructor; [|done]. by eapply linked_children. }
    destruct IHls as (after & Ha & Hnda & Hmema); [done| |].
    { intros y Hy. apply Hroot, elem_of_cons. by right. }
    simpl. rewrite Hlook, Hb, Ha.
    exists (x :: below ++ after). split; [done|].
    assert (∀ c, c ∈ children nd → child h x c) as Hchild.
    { intros c Hc. by exists nd. }
    split.
    + apply NoDup_cons. split.
      * intros [Hin|Hin]%elem_of_app.
        -- apply Hmemb in Hin as (c & Hc & Hcx).
           apply (rootedBy_acyclic _ _ Hxd).
           eapply tc_rtc_r; [apply tc_once; by apply Hchild|done].
        -- apply Hmema in Hin as (y & Hy & Hyx).
           assert (y = x) as ->; [|done].
           eapply (same_level_ancestor y x x d); [|done|done|done].
           apply Hroot, elem_of_cons. by right.
      * apply NoDup_app. split; [done|]. split; [|done].
        intros z (c & Hc & Hcz)%Hmemb (y & Hy & Hyz)%Hmema.
        assert (x = y) as ->; [|done].
        eapply (same_level_ancestor x y z d); [done| | |done].
        -- apply Hroot, elem_of_cons. by right.
        -- eapply rtc_l; [by apply Hchild|done].
    + intros z. rewrite elem_of_cons, elem_of_app, Hmemb, Hmema. split.
      * intros [->|[(c & Hc & Hcz)|(y & Hy & Hyz)]].
        -- exists x. split; [apply elem_of_cons; by left|done].
        -- exists x. split; [apply elem_of_cons; by left|].
           eapply rtc_l; [by apply Hchild|done].
        -- exists y. split; [apply elem_of_cons; by right|done].
      * intros (w & [->|Hw]%elem_of_cons & Hwz).
        -- apply rtc_inv in Hwz as [->|(c & (nd' & Hl' & Hc) & Hcz)]; [by left|].
           right; left. exists c. split; [congruence|done].
        -- right; right. by exists w.
Qed.

Lemma forestNodes_roots fuel :
  N < fuel →
  ∃ l, forestNodes fuel h rts = Some l ∧ NoDup l ∧
       ∀ z, z ∈ l ↔ ∃ d, rootedBy par N z d.
Proof.
  intros Hfuel.
  destruct (forestNodes_level fuel 0 rts) as (l & Hl & Hnd & Hmem);
    [lia|lia|by eapply linked_roots_nodup| |].
  { intros x [? ?]%(linked_roots _ _ _ _ HL). by constructor. }
  exists l. split; [done|]. split; [done|].
  intros z. rewrite Hmem. split.
  - intros (r & Hr & Hrz). apply inForest_rootedBy. by exists r.
  - intros [d Hd]. by apply (rootedBy_inForest _ _ Hd).
Qed.

(** When every chain ends, every node is rendered exactly once. *)
Lemma forestNodes_all fuel :
  N < fuel → (∀ j, j < N → ∃ d, rootedBy par N j d) →
  ∃ l, forestNodes fuel h rts = Some l ∧ l ≡ₚ seq 0 N.
Proof.
  intros Hfuel Hall.
  destruct (forestNodes_roots fuel Hfuel) as (l & Hl & Hnd & Hmem).
  exists l. split; [done|].
  apply NoDup_Permutation; [done|apply NoDup_seq|].
  intros z. rewrite Hmem, elem_of_seq. split.
  - intros [d Hd%rootedBy_lt]. lia.
  - intros [_ Hz]. by apply Hall.
Qed.
End Linked.

Lemma rootedBy_mono par par' N N' j d :
  N ≤ N' → (∀ i, i < N → par' i = par i) →
  (∀ i p, par i = Some p → i < N) →
  rootedBy par N j d → rootedBy par' N' j d.
Proof.
  intros HN Hagree Hlt. induction 1 as [j Hj Hp|j p d Hp _ IH].
  - constructor; [lia|]. by rewrite Hagree.
  - econstructor; [|done]. rewrite Hagree; [done|]. by eapply Hlt.
Qed.

(** Allocating the streaming node and pushing it onto the root array. *)
Lemma linked_push_root h rts par N m :
  linked h rts par N →
  linked (h ++ [mkNode m []]) (rts ++ [N]) par (S N).
Proof.
  intros HL. pose proof (linked_length _ _ _ _ HL) as Hlen.
  assert (par N = None) as HparN.
  { destruct (par N) as [p|] eqn:E; [|done].
    apply (linked_par_lt _ _ _ _ HL) in E. lia. }
  split.
  - rewrite length_app. simpl. lia.
  - intros j p [? ?]%(linked_par_lt _ _ _ _ HL). lia.
  - intros p nd [Hp|[_ Hp]]%lookup_app_Some.
    + by eapply linked_children_nodup.
    + destruct (p - length h); simplify_eq/=. constructor.
  - intros p nd c [Hp|[Hge Hp]]%lookup_app_Some.
    + by eapply linked_children.
    + destruct (p - length h) eqn:E; simplify_eq/=.
      split; [by intros ?%elem_of_nil|].
      intros [? ?]%(linked_par_lt _ _ _ _ HL). lia.
  - apply NoDup_app. split; [by eapply linked_roots_nodup|].
    split; [|apply NoDup_singleton].
    intros r [Hr _]%(linked_roots _ _ _ _ HL) ->%list_elem_of_singleton. lia.
  - intros r. rewrite elem_of_app, list_elem_of_singleton,
      (linked_roots _ _ _ _ HL). split.
    + intros [[? ?]| ->]; split; try done; lia.
    + intros [Hr Hp]. destruct (decide (r = N)); [by right|left].
      split; [lia|done].
Qed.

(** Allocating the streaming node and pushing it onto the children of [x]. *)
Lemma linked_push_child h rts par N m x :
  linked h rts par N → x < N →
  linked (pushChild (h ++ [mkNode m []]) x N) rts (graftPar par x N) (S N).
Proof.
  intros HL Hx. pose proof (linked_length _ _ _ _ HL) as Hlen.
  assert (∀ c p, par c = Some p → c ≠ N ∧ p ≠ N) as Hne.
  { intros c p [? ?]%(linked_par_lt _ _ _ _ HL). lia. }
  assert (∀ p nd, pushChild (h ++ [mkNode m []]) x N !! p = Some nd →
            (p = x ∧ ∃ nd0, h !! x = Some nd0 ∧
               nd = mkNode (msg nd0) (children nd0 ++ [N])) ∨
            (p ≠ x ∧ p < N ∧ h !! p = Some nd) ∨
            (p = N ∧ nd = mkNode m [])) as Hcases.
  { intros p nd. unfold pushChild. destruct (decide (p = x)) as [->|Hpx].
    - rewrite list_lookup_alter_eq, lookup_app_l by lia.
      destruct (h !! x) as [nd0|]; simpl; [|done].
      intros [= <-]. left. eauto.
    - rewrite list_lookup_alter_ne by done.
      intros [Hp|[Hge Hp]]%lookup_app_Some.
      + right; left. split; [done|]. split; [|done].
        apply lookup_lt_Some in Hp. lia.
      + right; right. destruct (p - length h) eqn:E; simplify_eq/=.
        split; [lia|done]. }
  split.
  - unfold pushChild. rewrite length_alter, length_app. simpl. lia.
  - intros j p. unfold graftPar. destruct (decide (j = N)) as [->|?].
    + intros [= <-]. lia.
    + intros [? ?]%(linked_par_lt _ _ _ _ HL). lia.
  - intros p nd [(-> & nd0 & H0 & ->)|[(? & ? & Hp)|(-> & ->)]]%Hcases; simpl.
    + apply NoDup_app. split; [by eapply linked_children_nodup|].
      split; [|apply NoDup_singleton].
      intros c Hc%(linked_children _ _ _ _ HL _ _ _ H0) ->%list_elem_of_singleton.
      apply Hne in Hc. lia.
    + by eapply linked_children_nodup.
    + constructor.
  - intros p nd c [(-> & nd0 & H0 & ->)|[(? & ? & Hp)|(-> & ->)]]%Hcases;
      simpl; unfold graftPar; destruct (decide (c = N)) as [->|HcN].
    + split; [done|]. intros _. apply elem_of_app. right.
      by apply list_elem_of_singleton.
    + rewrite elem_of_app, list_elem_of_singleton,
        (linked_children _ _ _ _ HL _ _ _ H0). split; [|by left].
      by intros [?|?].
    + rewrite (linked_children _ _ _ _ HL _ _ _ Hp). split.
      * intros ?%Hne. lia.
      * intros [= ->]. done.
    + by apply (linked_children _ _ _ _ HL).
    + split; [by intros ?%elem_of_nil|]. intros [= ->]. lia.
    + split; [by intros ?%elem_of_nil|]. intros ?%Hne. lia.
  - by eapply linked_roots_nodup.
  - intros r. rewrite (linked_roots _ _ _ _ HL). unfold graftPar.
    destruct (decide (r = N)) as [->|?].
    + split; [lia|]. by intros [_ ?].
    + split; intros [? ?]; split; done || lia.
Qed.

Lemma pushChild_msg h x c : msg <$> pushChild h x c = msg <$> h.
Proof.
  unfold pushChild. apply list_eq. intros i.
  rewrite !list_lookup_fmap.
  destruct (decide (i = x)) as [->|?].
  - rewrite list_lookup_alter_eq. by destruct (h !! x).
  - by rewrite list_lookup_alter_ne.
Qed.

(** ** Searching the forest *)

Lemma findId_app h k l1 l2 :
  findId h k (l1 ++ l2)
  = match findId h k l1 with Some x => Some x | None => findId h k l2 end.
Proof.
  induction l1 as [|x l1 IH]; simpl; [done|]. by case_decide.
Qed.

Lemma findId_Some h k ls x :
  findId h k ls = Some x → x ∈ ls ∧ (id ∘ msg) <$> h !! x = Some k.
Proof.
  induction ls as [|y ls IH]; simpl; [done|]. case_decide.
  - intros [= <-]. split; [apply elem_of_cons; by left|done].
  - intros [? ?]%IH. split; [apply elem_of_cons; by right|done].
Qed.

Lemma findId_None h k ls x :
  findId h k ls = None → x ∈ ls → (id ∘ msg) <$> h !! x ≠ Some k.
Proof.
  induction ls as [|y ls IH]; simpl; [by intros _ ?%elem_of_nil|].
  case_decide; [done|]. intros Hn [->|?]%elem_of_cons; [done|by apply IH].
Qed.

(** [attachToNode] walks the forest in rendering order: it returns whenever
    the rendering does, with the streaming node pushed under the first node
    carrying the id. *)
Lemma attachToNode_findId fuel k s h ls l :
  forestNodes fuel h ls = Some l →
  attachToNode fuel k s h ls
  = Some (match findId h k l with
          | Some x => (true, pushChild h x s)
          | None => (false, h)
          end).
Proof.
  revert ls l. induction fuel as [|fuel IH]; intros ls l; [done|].
  simpl. revert l. induction ls as [|n rest IHls]; intros l; simpl.
  - by intros [= <-].
  - destruct (h !! n) as [node|] eqn:Hn; [|done].
    destruct (forestNodes fuel h (children node)) as [below|] eqn:Hb; [|done].
    destruct (eachNode _ h rest) as [after|] eqn:Ha; [|done].
    intros [= <-]. simpl. rewrite Hn. simpl.
    case_bool_decide as Hid.
    + by rewrite decide_True by (by rewrite Hid).
    + rewrite decide_False by (by intros [= ?]).
      rewrite (IH _ _ Hb), findId_app.
      destruct (findId h k below); [done|]. by apply IHls.
Qed.

Lemma forestNodes_app fuel h h2 ls l :
  forestNodes fuel h ls = Some l → forestNodes fuel (h ++ h2) ls = Some l.
Proof.
  revert ls l. induction fuel as [|fuel IH]; intros ls l; [done|].
  simpl. revert l. induction ls as [|n rest IHls]; intros l; simpl; [done|].
  destruct (h !! n) as [node|] eqn:Hn; [|done].
  rewrite (lookup_app_l_Some _ _ _ _ Hn).
  destruct (forestNodes fuel h (children node)) as [below|] eqn:Hb; [|done].
  rewrite (IH _ _ Hb).
  destruct (eachNode _ h rest) as [after|] eqn:Ha; [|done].
  by rewrite (IHls _ eq_refl).
Qed.

(** ** The built forest *)

Lemma build_linked messages :
  unique_ids messages →
  linked (nodes (buildMessageTree messages)) (roots (buildMessageTree messages))
         (parentIndex messages) (length messages).
Proof.
  intros Hnd. split.
  - by apply build_nodes_length.
  - apply parentIndex_lt.
  - intros p nd. rewrite build_nodes_lookup by done.
    destruct (patchedMessages messages !! p); simpl; [|done].
    intros [= <-]. simpl. apply NoDup_filter, NoDup_seq.
  - intros p nd c. rewrite build_nodes_lookup by done.
    destruct (patchedMessages messages !! p); simpl; [|done].
    intros [= <-]. simpl. rewrite list_elem_of_filter, elem_of_seq.
    split; [by intros [? _]|]. intros Hc. split; [done|].
    apply parentIndex_lt in Hc. lia.
  - rewrite build_roots by done. apply NoDup_filter, NoDup_seq.
  - intros r. by apply build_root_iff.
Qed.

Lemma build_nodes_msg messages :
  unique_ids messages →
  msg <$> nodes (buildMessageTree messages) = patchedMessages messages.
Proof.
  intros Hnd. apply list_eq. intros i.
  rewrite list_lookup_fmap, build_nodes_lookup by done.
  by destruct (patchedMessages messages !! i).
Qed.

Lemma build_node_id messages x k :
  unique_ids messages →
  (id ∘ msg) <$> nodes (buildMessageTree messages) !! x = Some k →
  (id <$> messages) !! x = Some k.
Proof.
  intros Hnd. rewrite build_nodes_lookup, patchedMessages_lookup by done.
  rewrite list_lookup_fmap.
  destruct (messages !! x) as [m|]; simpl; [|done].
  by rewrite patch_id.
Qed.

Lemma last_index (messages : list Message) m :
  last messages = Some m →
  messages !! (length messages - 1) = Some m ∧ 0 < length messages.
Proof.
  rewrite last_lookup. intros H.
  replace (length messages - 1) with (pred (length messages)) by lia.
  split; [done|]. apply lookup_lt_Some in H. lia.
Qed.

(** ** The streaming graft *)

(** The branches that never search: streaming node appended to the roots. *)
Lemma messageTree_as_root fuel now messages streamingContent :
  (∀ m, last messages = Some m → truthy (reply_to_id m) = false) →
  messageTree fuel now messages true streamingContent
  = Some (mkForest
            (nodes (buildMessageTree messages)
               ++ [streamingNode now streamingContent])
            (roots (buildMessageTree messages)
               ++ [length (nodes (buildMessageTree messages))])).
Proof.
  intros Hlast. unfold messageTree.
  destruct (last messages) as [m|]; [|done].
  by rewrite (Hlast m eq_refl).
Qed.

(** The searching branch: with unique ids the search returns for any fuel
    above the number of messages, and its outcome is decided by whether the
    last message's own node is part of the forest. *)
Lemma messageTree_search fuel now messages streamingContent lastMessage :
  unique_ids messages → length messages < fuel →
  last messages = Some lastMessage →
  truthy (reply_to_id lastMessage) = true →
  let tree := buildMessageTree messages in
  let h := nodes tree ++ [streamingNode now streamingContent] in
  ((∃ d, rooted messages (length messages - 1) d) ∧
   messageTree fuel now messages true streamingContent
   = Some (mkForest (pushChild h (length messages - 1) (length messages))
             (roots tree)))
  ∨ ((¬ ∃ d, rooted messages (length messages - 1) d) ∧
     messageTree fuel now messages true streamingContent
     = Some (mkForest h (roots tree ++ [length messages]))).
Proof.
  intros Hnd Hfuel Hlast Htruthy tree h.
  pose proof (build_linked _ Hnd) as HL.
  destruct (forestNodes_roots HL fuel Hfuel) as (l & Hl & _ & Hmem).
  pose proof (forestNodes_app _ _ [streamingNode now streamingContent] _ _ Hl)
    as Hl'.
  destruct (last_index _ _ Hlast) as [Hlm Hpos].
  unfold messageTree. rewrite Hlast, Htruthy.
  rewrite (attachToNode_findId _ _ _ _ _ _ Hl').
  rewrite build_nodes_length by done.
  assert (∀ x, x < length messages →
     (id ∘ msg) <$> (nodes (buildMessageTree messages)
        ++ [streamingNode now streamingContent]) !! x = Some (id lastMessage) →
     x = length messages - 1) as Huniq.
  { intros x Hx. rewrite lookup_app_l by (by rewrite build_nodes_length).
    intros Hk%build_node_id; [|done].
    eapply NoDup_lookup; [exact Hnd|exact Hk|].
    by rewrite list_lookup_fmap, Hlm. }
  destruct (findId _ _ l) as [x|] eqn:Hfind.
  - apply findId_Some in Hfind as [Hx Hid].
    apply Hmem in Hx as [d Hd].
    pose proof (rootedBy_lt HL _ _ Hd) as Hxlt.
    rewrite (Huniq x Hxlt Hid) in *. left. split; [by exists d|done].
  - right. split; [|done]. intros [d Hd].
    assert (length messages - 1 ∈ l) as Hin by (apply Hmem; by exists d).
    eapply findId_None; [exact Hfind|exact Hin|].
    rewrite lookup_app_l by (rewrite build_nodes_length by done; lia).
    rewrite build_nodes_lookup, patchedMessages_lookup, Hlm by done.
    simpl. by rewrite patch_id.
Qed.

Lemma linkNode_heap_length s P :
  length (heap (foldl linkNode s P)) = length (heap s).
Proof.
  revert s. induction P as [|m P IH]; intros s; simpl; [done|].
  rewrite IH. unfold linkNode, pushChild.
  repeat case_match; simpl; by rewrite ?length_alter.
Qed.

Lemma buildMessageTree_length messages :
  length (nodes (buildMessageTree messages)) = length messages.
Proof.
  unfold buildMessageTree, buildState. simpl.
  rewrite linkNode_heap_length, setNode_heap. simpl.
  by rewrite length_fmap, patchedMessages_length.
Qed.

Lemma linkNode_messageMap s m : messageMap (linkNode s m) = messageMap s.
Proof. unfold linkNode. by repeat case_match. Qed.

Lemma linkNode_children_lt n s P :
  (∀ k i, messageMap s !! k = Some i → i < n) →
  Forall (λ nd, Forall (λ c, c < n) (children nd)) (heap s) →
  Forall (λ nd, Forall (λ c, c < n) (children nd)) (heap (foldl linkNode s P)).
Proof.
  revert s. induction P as [|m P IH]; intros s Hmm Hheap; simpl; [done|].
  apply IH; [by rewrite linkNode_messageMap|].
  unfold linkNode. destruct (messageMap s !! id m) as [node|] eqn:Hnode; [|done].
  destruct (parentRef (messageMap s) m); simpl; [|done].
  apply Forall_alter; [done|]. intros nd _ Hnd. simpl.
  apply Forall_app. split; [done|]. apply Forall_singleton. by eapply Hmm.
Qed.

(** Whatever the ids, a children array only holds references to the objects
    of the first pass. *)
Lemma build_children_lt messages p nd c :
  nodes (buildMessageTree messages) !! p = Some nd →
  c ∈ children nd → c < length messages.
Proof.
  intros Hp Hc.
  assert (Forall (λ nd, Forall (λ c, c < length messages) (children nd))
            (nodes (buildMessageTree messages))) as Hall.
  { apply linkNode_children_lt.
    - intros k i (m & Hm%lookup_lt_Some & _)%setNode_map_sound.
      by rewrite patchedMessages_length in Hm.
    - rewrite setNode_heap. simpl. apply Forall_fmap, Forall_forall.
      intros m _. simpl. constructor. }
  eapply Forall_lookup_1 in Hall; [|exact Hp].
  by eapply Forall_forall in Hall.
Qed.

Lemma indexOfId_own messages i m :
  unique_ids messages → messages !! i = Some m →
  indexOfId messages (id m) = Some i.
Proof.
  intros Hnd Hm. rewrite <- firstPass_indexOfId by done.
  rewrite <- (patch_id messages i m). apply firstPass_own; [done|].
  by rewrite patchedMessages_lookup, Hm.
Qed.


(** With unique ids the memo returns for any fuel above the number of
    messages; the node objects are those of the messages, then the streaming
    node, and every root of [buildMessageTree] stays a root. *)
Lemma messageTree_total fuel now messages isStreaming streamingContent :
  unique_ids messages → length messages < fuel →
  ∃ f, messageTree fuel now messages isStreaming streamingContent = Some f ∧
       msg <$> nodes f
       = patchedMessages messages
         ++ (if isStreaming then [msg (streamingNode now streamingContent)] else []) ∧
       ∀ r, r ∈ roots (buildMessageTree messages) → r ∈ roots f.
Proof.
  intros Hnd Hfuel. destruct isStreaming.
  - assert (msg <$> nodes (buildMessageTree messages)
                      ++ [streamingNode now streamingContent]
            = patchedMessages messages
              ++ [msg (streamingNode now streamingContent)]) as Hmsg.
    { by rewrite fmap_app, build_nodes_msg. }
    destruct (last messages) as [m|] eqn:Hlast.
    + destruct (truthy (reply_to_id m)) eqn:Ht.
      * destruct (messageTree_search fuel now messages streamingContent m)
          as [[_ ->]|[_ ->]]; try done.
        -- eexists. split; [done|]. simpl. by rewrite pushChild_msg.
        -- eexists. split; [done|]. simpl. split; [done|].
           intros r Hr. apply elem_of_app. by left.
      * rewrite messageTree_as_root by (intros; by simplify_eq).
        eexists. split; [done|]. simpl. split; [done|].
        intros r Hr. apply elem_of_app. by left.
    + rewrite messageTree_as_root by (intros; by simplify_eq).
      eexists. split; [done|]. simpl. split; [done|].
      intros r Hr. apply elem_of_app. by left.
  - exists (buildMessageTree messages). split; [done|].
    by rewrite build_nodes_msg, app_nil_r.
Qed.

(** ** Completeness of the forest *)

(** Which messages the built forest holds: each message whose chain of
    working reply links ends at a root, once; the others not at all. *)
Lemma build_forest_nodes fuel messages :
  unique_ids messages → length messages < fuel →
  ∃ l, forestNodes fuel (nodes (buildMessageTree messages))
         (roots (buildMessageTree messages)) = Some l ∧
       NoDup l ∧ ∀ j, j ∈ l ↔ ∃ d, rooted messages j d.
Proof.
  intros Hnd Hfuel. by apply (forestNodes_roots (build_linked _ Hnd)).
Qed.

Lemma rooted_after_push_root messages j :
  reply_chains_end messages → j < S (length messages) →
  ∃ d, rootedBy (parentIndex messages) (S (length messages)) j d.
Proof.
  intros Hall Hj. destruct (decide (j = length messages)) as [->|Hne].
  - exists 0. constructor; [lia|].
    destruct (parentIndex messages (length messages)) eqn:E; [|done].
    apply parentIndex_lt in E. lia.
  - destruct (Hall j) as [d Hd]; [lia|]. exists d.
    eapply rootedBy_mono; [| | |exact Hd]; [lia|done|].
    intros i p Hp. by apply parentIndex_lt in Hp as [? _].
Qed.

Lemma rooted_after_push_child messages x j :
  reply_chains_end messages → x < length messages →
  j < S (length messages) →
  ∃ d, rootedBy (graftPar (parentIndex messages) x (length messages))
         (S (length messages)) j d.
Proof.
  intros Hall Hx Hj.
  assert (∀ i d, rooted messages i d →
     rootedBy (graftPar (parentIndex messages) x (length messages))
       (S (length messages)) i d) as Hmono.
  { intros i d Hd. eapply rootedBy_mono; [| | |exact Hd]; [lia| |].
    - intros k Hk. unfold graftPar. by rewrite decide_False by lia.
    - intros k p Hp. by apply parentIndex_lt in Hp as [? _]. }
  destruct (decide (j = length messages)) as [->|Hne].
  - destruct (Hall x Hx) as [d Hd]. exists (S d).
    econstructor; [|by apply Hmono].
    unfold graftPar. by rewrite decide_True.
  - destruct (Hall j) as [d Hd]; [lia|]. exists d. by apply Hmono.
Qed.

(** C1 (amended). For every input list with pairwise distinct ids in which
    every chain of working reply links ends at a message without a parent,
    and for every streaming argument, the forest holds exactly one node per
    input message, each rendered exactly once, plus exactly one streaming
    node if and only if streaming is active. *)
Theorem build_complete now messages isStreaming streamingContent :
  unique_ids messages → reply_chains_end messages →
  complete now messages isStreaming streamingContent.
Proof.
  intros Hnd Hall. pose proof (build_linked _ Hnd) as HL.
  exists (S (length messages)).
  destruct (messageTree_total (S (length messages)) now messages isStreaming
              streamingContent Hnd) as (f & Hf & Hmsg & _); [lia|].
  exists f. split; [done|]. split; [done|].
  exists (S (S (length messages))).
  assert (length (nodes f)
          = if isStreaming then S (length messages) else length messages)
    as Hlen.
  { rewrite <- (length_fmap msg), Hmsg, length_app, patchedMessages_length.
    destruct isStreaming; simpl; lia. }
  rewrite Hlen. destruct isStreaming.
  - destruct (last messages) as [m|] eqn:Hlast.
    + destruct (truthy (reply_to_id m)) eqn:Ht.
      * destruct (last_index _ _ Hlast) as [_ Hpos].
        assert (length messages - 1 < length messages) as Hx by lia.
        assert (length messages < S (length messages)) as Hfuel by lia.
        pose proof (messageTree_search _ now _ streamingContent _
                      Hnd Hfuel Hlast Ht) as HS. cbv zeta in HS.
        destruct HS as [[_ Heq]|[Hno _]].
        -- rewrite Heq in Hf. apply (inj Some) in Hf as <-. cbn [nodes roots].
           eapply (forestNodes_all
                     (linked_push_child _ _ _ _
                        (msg (streamingNode now streamingContent)) _ HL Hx));
             [lia|].
           intros j Hj. by apply rooted_after_push_child.
        -- exfalso. apply Hno. by apply Hall.
      * rewrite messageTree_as_root in Hf by (intros; by simplify_eq).
        apply (inj Some) in Hf as <-. cbn [nodes roots]. rewrite buildMessageTree_length.
        eapply (forestNodes_all
                  (linked_push_root _ _ _ _
                     (msg (streamingNode now streamingContent)) HL)); [lia|].
        intros j Hj. by apply rooted_after_push_root.
    + rewrite messageTree_as_root in Hf by (intros; by simplify_eq).
      apply (inj Some) in Hf as <-. cbn [nodes roots]. rewrite buildMessageTree_length.
      eapply (forestNodes_all
                (linked_push_root _ _ _ _
                   (msg (streamingNode now streamingContent)) HL)); [lia|].
      intros j Hj. by apply rooted_after_push_root.
  - apply (inj Some) in Hf as <-.
    eapply (forestNodes_all HL); [lia|]. apply Hall.
Qed.

Ltac unique_by_computation :=
  unfold unique_ids; apply (bool_decide_unpack _); vm_compute; exact I.

(** C1, witness: the scenario of the specification with an active stream. *)
Lemma build_complete_witness :
  unique_ids hiHello ∧ reply_chains_end hiHello ∧
  complete "now" hiHello true "Thinking".
Proof.
  assert (unique_ids hiHello) as Hnd by unique_by_computation.
  assert (reply_chains_end hiHello) as Hall.
  { intros [|[|j]] Hj; [| |simpl in Hj; lia].
    - exists 0. by constructor.
    - exists 1. apply (rooted_reply _ _ 1 0 0); [done|].
      constructor; [simpl; lia|done]. }
  split; [done|]. split; [done|].
  apply (build_complete "now" hiHello true "Thinking" Hnd Hall).
Defined.

(** C1, as stated, fails: two messages that name each other as parent are
    pushed onto each other's children and onto no root array, so the forest
    is empty and both messages are lost. *)
Lemma reply_cycle_loses_messages : ¬ complete "now" replyCycle false "".
Proof.
  intros (fuel & f & Hf & _ & fuel' & l & Hl & Hperm).
  apply (inj Some) in Hf as <-.
  assert (roots (buildMessageTree replyCycle) = []) as Hroots by done.
  rewrite Hroots, buildMessageTree_length in *.
  destruct fuel' as [|fuel']; [done|]. simpl in Hl.
  apply (inj Some) in Hl as <-.
  by apply Permutation_length in Hperm.
Qed.

(** ** Acyclicity *)

(** C2. For every input list whose ids are pairwise distinct (the data-model
    invariant), whatever its reply links (mutual or self references,
    dangling references), no node of the forest returned by
    [buildMessageTree] is its own descendant. *)
Theorem build_forest_acyclic messages x :
  unique_ids messages →
  inForest (buildMessageTree messages) x →
  ¬ tc (child (nodes (buildMessageTree messages))) x x.
Proof.
  intros Hnd Hx. pose proof (build_linked _ Hnd) as HL.
  destruct (inForest_rootedBy HL x Hx) as [d Hd].
  by eapply rootedBy_acyclic.
Qed.

(** C2, witness: a reply cycle next to an ordinary exchange; the answer of
    the exchange is a node of the forest. *)
Lemma build_forest_acyclic_witness :
  unique_ids cycleAndThread ∧
  inForest (buildMessageTree cycleAndThread) 3 ∧
  ¬ tc (child (nodes (buildMessageTree cycleAndThread))) 3 3.
Proof.
  assert (unique_ids cycleAndThread) as Hnd by unique_by_computation.
  assert (inForest (buildMessageTree cycleAndThread) 3) as Hin.
  { exists 2. split; [by apply list_elem_of_lookup_2 with 0|].
    apply rtc_once. eexists. split; [reflexivity|].
    by apply list_elem_of_lookup_2 with 0. }
  split; [done|]. split; [done|].
  apply (build_forest_acyclic cycleAndThread 3 Hnd Hin).
Defined.

(** ** Where the streaming node is attached *)

(** C3 (amended). For every message list with pairwise distinct ids whose
    chronologically last message has a reply_to_id set, when streaming is
    active: if the last message is part of the forest, the streaming node is
    attached as a child of the last message's own node (the node whose id is
    the last message's id, not the node of its reply target) and of no other
    node; if the last message is not part of the forest (it lies on or below
    a reply cycle), the streaming node is appended as an additional root. *)
Theorem graft_under_last_message fuel now messages streamingContent lastMessage :
  unique_ids messages → length messages < fuel →
  last messages = Some lastMessage →
  truthy (reply_to_id lastMessage) = true →
  let tree := buildMessageTree messages in
  let h := nodes tree ++ [streamingNode now streamingContent] in
  let own := length messages - 1 in
  let streamingMsg := length messages in
  ((id ∘ msg) <$> nodes tree !! own = Some (id lastMessage)) ∧
  ((∃ d, rooted messages own d) →
     messageTree fuel now messages true streamingContent
     = Some (mkForest (pushChild h own streamingMsg) (roots tree)) ∧
     ∀ p nd, pushChild h own streamingMsg !! p = Some nd →
             streamingMsg ∈ children nd ↔ p = own) ∧
  ((¬ ∃ d, rooted messages own d) →
     messageTree fuel now messages true streamingContent
     = Some (mkForest h (roots tree ++ [streamingMsg]))).
Proof.
  intros Hnd Hfuel Hlast Ht tree h own streamingMsg.
  destruct (last_index _ _ Hlast) as [Hlm Hpos].
  pose proof (messageTree_search _ now _ streamingContent _
                Hnd Hfuel Hlast Ht) as HS. cbv zeta in HS.
  split; [|split].
  - subst tree own. rewrite build_nodes_lookup, patchedMessages_lookup, Hlm by done.
    simpl. by rewrite patch_id.
  - intros Hrooted. destruct HS as [[_ Heq]|[Hno _]]; [|done].
    split; [done|]. intros p nd Hp.
    assert (own < length messages) as Hown by (subst own; lia).
    pose proof (linked_push_child _ _ _ _
                  (msg (streamingNode now streamingContent)) _
                  (build_linked _ Hnd) Hown) as HL'.
    rewrite (linked_children _ _ _ _ HL' _ _ _ Hp).
    unfold graftPar. rewrite decide_True by done. split; congruence.
  - intros Hno. by destruct HS as [[Hyes _]|[_ Heq]].
Qed.

(** C3, witness: a follow-up that replies to the first message. *)
Lemma graft_under_last_message_witness :
  unique_ids replyThread ∧ 3 < 4 ∧
  last replyThread = Some (mk 3 user "follow-up" (Some 1%Z)) ∧
  (∃ d, rooted replyThread 2 d) ∧
  messageTree 4 "now" replyThread true "S"
  = Some (mkForest
            (pushChild (nodes (buildMessageTree replyThread)
                          ++ [streamingNode "now" "S"]) 2 3)
            (roots (buildMessageTree replyThread))).
Proof.
  assert (unique_ids replyThread) as Hnd by unique_by_computation.
  assert (∃ d, rooted replyThread 2 d) as Hrooted.
  { exists 1. apply (rooted_reply _ _ 2 0 0); [done|].
    constructor; [simpl; lia|done]. }
  split; [done|]. split; [lia|]. split; [done|]. split; [done|].
  apply (graft_under_last_message 4 "now" replyThread "S"
           (mk 3 user "follow-up" (Some 1%Z)) Hnd); [simpl; lia|done|done|done].
Defined.

(** C3, as stated, fails: the last message (id 3) replies to id 1, and the
    streaming node ends up under node 3, not under node 1. *)
Lemma graft_not_under_reply_target :
  ∃ f, messageTree 4 "now" replyThread true "S" = Some f ∧
       ¬ graftedUnderReplyTarget replyThread f.
Proof.
  eexists. split; [reflexivity|]. intros Hclaim.
  specialize (Hclaim (mk 3 user "follow-up" (Some 1%Z)) 1%Z eq_refl eq_refl).
  destruct (Hclaim 2 (mkNode (mk 3 user "follow-up" (Some 1%Z)) [3]) eq_refl)
    as [Habs _].
  by specialize (Habs ltac:(by apply list_elem_of_lookup_2 with 0)).
Qed.

(** C10. The graft decision reads the stored reply_to_id of the last input
    message only: when that message has none, whatever link the inference
    pass gave it, an active streaming node is appended as an additional
    root, every existing node keeps its children, and no node has the
    streaming node as a child. *)
Theorem graft_ignores_inferred_link fuel now messages streamingContent lastMessage :
  last messages = Some lastMessage →
  reply_to_id lastMessage = None →
  let tree := buildMessageTree messages in
  let h := nodes tree ++ [streamingNode now streamingContent] in
  messageTree fuel now messages true streamingContent
  = Some (mkForest h (roots tree ++ [length messages])) ∧
  ∀ p nd, h !! p = Some nd → length messages ∉ children nd.
Proof.
  intros Hlast Hnone tree h. split.
  - rewrite messageTree_as_root.
    + by rewrite buildMessageTree_length.
    + intros m Hm. assert (m = lastMessage) as -> by congruence.
      by rewrite Hnone.
  - intros p nd [Hp|[_ Hp]]%lookup_app_Some Hc.
    + pose proof (build_children_lt _ _ _ _ Hp Hc). lia.
    + destruct (p - length (nodes tree)); simplify_eq/=.
      by apply elem_of_nil in Hc.
Qed.

(** C10, witness: the assistant answer directly follows a user message, so
    the inference pass makes it a child of that message; the streaming node
    still becomes a root. *)
Lemma graft_ignores_inferred_link_witness :
  last hiHello = Some (mk 2 assistant "Hello" None) ∧
  child (nodes (buildMessageTree hiHello)) 0 1 ∧
  messageTree 0 "now" hiHello true "Thinking"
  = Some (mkForest (nodes (buildMessageTree hiHello)
                      ++ [streamingNode "now" "Thinking"])
            (roots (buildMessageTree hiHello) ++ [2])) ∧
  ∀ p nd, (nodes (buildMessageTree hiHello)
             ++ [streamingNode "now" "Thinking"]) !! p = Some nd →
          2 ∉ children nd.
Proof.
  split; [done|]. split.
  - eexists. split; [reflexivity|]. by apply list_elem_of_lookup_2 with 0.
  - apply (graft_ignores_inferred_link 0 "now" hiHello "Thinking"
             (mk 2 assistant "Hello" None)); reflexivity.
Defined.

(** ** Reply-link inference and orphan promotion *)

Lemma truthy_false_inv o : truthy o = false → o = None ∨ o = Some 0%Z.
Proof.
  destruct o as [z|]; simpl; [|by left].
  intros Hz%negb_false_iff%Z.eqb_eq. right. by subst.
Qed.

(** C8. An assistant message without a stored reply_to_id that directly
    follows a user message gets that message's id as its working
    reply_to_id, and so becomes a child of that user message's node; every
    other message keeps its stored reply_to_id, present or absent. (Ids are
    storage row ids: the front end reads a 0 as an absent value.) *)
Theorem inference_pass messages :
  (∀ i prev m,
     messages !! i = Some prev → messages !! S i = Some m →
     role prev = user → role m = assistant → reply_to_id m = None →
     patchedMessages messages !! S i
       = Some (with_reply_to_id m (Some (id prev))) ∧
     (unique_ids messages → id prev ≠ 0%Z →
      child (nodes (buildMessageTree messages)) i (S i))) ∧
  (∀ i m,
     messages !! i = Some m → reply_to_id m ≠ Some 0%Z →
     ¬ (role m = assistant ∧ reply_to_id m = None ∧
        ∃ prev, 0 < i ∧ messages !! (i - 1) = Some prev ∧ role prev = user) →
     patchedMessages messages !! i = Some m).
Proof.
  split.
  - intros i prev m Hprev Hm Huser Hassistant Hnone.
    assert (patchedMessages messages !! S i
            = Some (with_reply_to_id m (Some (id prev)))) as Hpatched.
    { rewrite patchedMessages_lookup, Hm. simpl. unfold patch.
      rewrite Hnone, bool_decide_true by done. simpl.
      rewrite Nat.sub_0_r, Hprev. by rewrite bool_decide_true. }
    split; [done|]. intros Hnd Hid.
    apply build_child_iff; [done|].
    unfold parentIndex. rewrite Hpatched. simpl.
    apply Z.eqb_neq in Hid. rewrite Hid. simpl.
    by apply indexOfId_own.
  - intros i m Hm Hzero Hother.
    rewrite patchedMessages_lookup, Hm. simpl. f_equal. unfold patch.
    destruct (bool_decide (role m = assistant)) eqn:Hr; [|done].
    destruct (truthy (reply_to_id m)) eqn:Ht; [done|].
    destruct (bool_decide (0 < i)) eqn:Hi; [|done]. simpl.
    destruct (messages !! (i - 1)) as [prev|] eqn:Hprev; [|done].
    destruct (bool_decide (role prev = user)) eqn:Hu; [|done].
    exfalso. apply Hother.
    apply bool_decide_eq_true in Hr, Hi, Hu.
    apply truthy_false_inv in Ht as [Ht|Ht]; [|done].
    split; [done|]. split; [done|]. by exists prev.
Qed.

(** C8, witness: in the scenario of the specification the answer is linked
    to the question, and the question itself is left as stored. *)
Lemma inference_pass_witness :
  (patchedMessages hiHello !! 1
     = Some (with_reply_to_id (mk 2 assistant "Hello" None) (Some 1%Z)) ∧
   child (nodes (buildMessageTree hiHello)) 0 1) ∧
  patchedMessages hiHello !! 0 = Some (mk 1 user "Hi" None).
Proof.
  destruct (inference_pass hiHello) as [Hinfer Hkeep].
  split.
  - destruct (Hinfer 0 (mk 1 user "Hi" None) (mk 2 assistant "Hello" None))
      as [Hp Hc]; try reflexivity.
    split; [exact Hp|]. apply Hc; [unique_by_computation|done].
  - apply Hkeep; [reflexivity|done|]. by intros (? & _).
Defined.




(** ** Stream reconciler *)

(** What a rejected generation request does, for both [catch] blocks: the
    streaming flag goes down, the loaded messages stay as they are, nothing
    is sent to the backend, and the buffer is left as it is. *)
Lemma rejection_effect st e ev :
  ev = App.SendRejected e ∨ ev = App.RetryRejected e →
  let '(st', cmds) := App.step st ev in
  App.isStreaming st' = false ∧
  App.messages st' = App.messages st ∧
  App.streamingContent st' = App.streamingContent st ∧
  ∃ entry, cmds = [App.console entry].
Proof.
  intros [-> | ->]; simpl; repeat split; eauto.
Qed.

(** The completion path does discard the buffer. *)
Lemma stream_done_discards_buffer st :
  App.streamingContent (fst (App.step st App.StreamDone)) = ""%string ∧
  App.isStreaming (fst (App.step st App.StreamDone)) = false.
Proof. done. Qed.

(** Every generation request starts from an empty buffer. *)
Lemma request_clears_buffer st ev st' cmds :
  (∃ a b c d e f, ev = App.SendMessage a b c d e f) ∨ ev = App.Retry →
  App.step st ev = (st', cmds) → cmds ≠ [] →
  App.streamingContent st' = ""%string ∧ App.isStreaming st' = true.
Proof.
  intros [(a & b & c & d & e & f & ->) | ->]; simpl;
    repeat case_match; intros [= <- <-]; done.
Qed.

(** C4. The failing run: a message is sent, two deltas arrive, and the
    backend call rejects. The streaming flag is lowered, the loaded messages
    are kept and nothing is retried or written, but the transient buffer is
    not discarded: it still holds the deltas. *)
Theorem rejected_send_keeps_buffer :
  let '(st', cmds) := App.run App.idle App.failedSend in
  App.isStreaming st' = false ∧
  App.streamingContent st' = "partial"%string ∧
  App.streamingContent st' ≠ ""%string ∧
  (∃ tempMsg, App.messages st' = App.messages App.idle ++ [tempMsg]) ∧
  cmds = [App.invoke_send_message 7 "And then?" None None "qwen3-vl" None;
          App.console (App.error_send_message "connection lost")].
Proof.
  simpl. repeat split; eauto.
Qed.

(** ** Context assembler *)

Section AssemblerFacts.
Variable getTime : string → Z.
Variable get_messages : Z → App.Result (list Message).

Lemma slice_last_length {A} n (l : list A) : length (App.slice_last n l) ≤ n.
Proof. unfold App.slice_last. rewrite length_drop. lia. Qed.

Lemma slice_last_suffix {A} n (l : list A) : App.slice_last n l `suffix_of` l.
Proof. apply suffix_drop. Qed.

Lemma slice_last_short {A} n (l : list A) :
  length l ≤ n → App.slice_last n l = l.
Proof.
  intros Hl. unfold App.slice_last.
  by replace (length l - n) with 0 by lia.
Qed.

#[local] Instance byCreatedAt_trans : Transitive (App.byCreatedAt getTime).
Proof. intros a b c. unfold App.byCreatedAt. lia. Qed.

Lemma insertByTime_perm x l : App.insertByTime getTime x l ≡ₚ x :: l.
Proof.
  induction l as [|y l IH]; simpl; [done|].
  case_match; [done|]. by rewrite IH, Permutation_swap.
Qed.

Lemma sortByCreatedAt_perm l : App.sortByCreatedAt getTime l ≡ₚ l.
Proof.
  induction l as [|x l IH]; simpl; [done|].
  by rewrite insertByTime_perm, IH.
Qed.

Lemma insertByTime_sorted x l :
  StronglySorted (App.byCreatedAt getTime) l →
  StronglySorted (App.byCreatedAt getTime) (App.insertByTime getTime x l).
Proof.
  induction 1 as [|y l Hl IH Hy]; simpl.
  - repeat constructor.
  - destruct (Z.leb_spec (getTime (created_at x)) (getTime (created_at y)))
      as [Hle|Hgt].
    + constructor; [by constructor|]. constructor; [done|].
      eapply Forall_impl; [exact Hy|]. intros z Hz.
      by etrans.
    + constructor; [done|]. rewrite insertByTime_perm.
      constructor; [|done]. unfold App.byCreatedAt. lia.
Qed.

Lemma sortByCreatedAt_sorted l :
  StronglySorted (App.byCreatedAt getTime) (App.sortByCreatedAt getTime l).
Proof.
  induction l as [|x l IH]; simpl; [constructor|].
  by apply insertByTime_sorted.
Qed.

(** The sort is stable: messages with one timestamp keep their order. *)
Lemma insertByTime_stable t x l :
  filter (λ m, getTime (created_at m) = t) (App.insertByTime getTime x l)
  = filter (λ m, getTime (created_at m) = t) (x :: l).
Proof.
  induction l as [|y l IH]; simpl; [done|].
  destruct (Z.leb_spec (getTime (created_at x)) (getTime (created_at y)))
    as [Hle|Hgt]; [done|].
  rewrite (filter_cons _ y), IH, !(filter_cons _ x), !(filter_cons _ y).
  repeat case_decide; try done; lia.
Qed.

Lemma sortByCreatedAt_stable t l :
  filter (λ m, getTime (created_at m) = t) (App.sortByCreatedAt getTime l)
  = filter (λ m, getTime (created_at m) = t) l.
Proof.
  induction l as [|x l IH]; simpl; [done|].
  by rewrite insertByTime_stable, !filter_cons, IH.
Qed.

Lemma recentMessages_sorted pool :
  StronglySorted (App.byCreatedAt getTime) (App.recentMessages getTime pool).
Proof.
  unfold App.recentMessages, App.slice_last.
  eapply StronglySorted_app_1_r. rewrite take_drop.
  apply sortByCreatedAt_sorted.
Qed.

Lemma renderLine_format m :
  App.renderLine m
  = ((match role m with user => "USER" | assistant => "ASSISTANT" end)
     ++ ": " ++ content m)%string.
Proof. unfold App.renderLine. by destruct (role m). Qed.

Lemma renderLines_format (recent : list Message) :
  App.renderLine <$> recent
  = (λ m, (match role m with user => "USER" | assistant => "ASSISTANT" end
           ++ ": " ++ content m)%string) <$> recent.
Proof. apply list_fmap_ext. intros _ m _. apply renderLine_format. Qed.

Lemma withContext_format systemPrompt recent :
  App.withContext systemPrompt recent
  = (default "" systemPrompt ++ App.nl ++ App.nl
     ++ "[CONTEXT FROM PREVIOUS SESSION]" ++ App.nl
     ++ String.concat App.nl
          ((λ m, (match role m with user => "USER" | assistant => "ASSISTANT" end
                  ++ ": " ++ content m)%string) <$> recent)
     ++ App.nl ++ "[END CONTEXT]" ++ App.nl)%string.
Proof.
  unfold App.withContext.
  assert (App.renderLine <$> recent
          = (λ m, (match role m with user => "USER" | assistant => "ASSISTANT" end
                   ++ ": " ++ content m)%string) <$> recent) as ->; [|done].
  apply list_fmap_ext. intros _ m _. apply renderLine_format.
Qed.

(** The loop over the configured threads never rejects: a rejected fetch
    leaves a warning and contributes nothing. *)
Lemma collectSelected_spec ids contextMessages log :
  App.collectSelected get_messages ids contextMessages log
  = (App.Ok (contextMessages ++ concat (App.contribution get_messages <$> ids)),
     log ++ omap (App.fetchWarning get_messages) ids).
Proof.
  revert contextMessages log.
  induction ids as [|t ids IH]; intros contextMessages log; simpl.
  - by rewrite !app_nil_r.
  - unfold mbind, App.Async_bind, App.tryCatch, App.invokeGetMessages,
      App.contribution, App.fetchWarning at 1, App.consoleLog. simpl.
    destruct (get_messages t) as [msgs|e]; simpl; rewrite IH.
    + by rewrite <- app_assoc.
    + by rewrite <- app_assoc.
Qed.

(** The smart-context block when source threads are configured. *)
Lemma smartContext_selected st systemPrompt log :
  App.selectedContextThreadIds st ≠ [] →
  let pool := concat (App.contribution get_messages
                        <$> App.selectedContextThreadIds st) in
  App.smartContext getTime get_messages st systemPrompt log
  = (App.Ok (App.seededPrompt getTime systemPrompt pool, App.messages st),
     log ++ omap (App.fetchWarning get_messages)
              (App.selectedContextThreadIds st)).
Proof.
  intros Hsel pool. unfold App.smartContext, App.tryCatch.
  rewrite bool_decide_true by (destruct (App.selectedContextThreadIds st);
                               [done|simpl; lia]).
  unfold mbind at 1, App.Async_bind at 1.
  unfold mbind at 1, App.Async_bind at 1.
  rewrite collectSelected_spec. simpl. fold pool.
  destruct pool as [|m pool']; simpl; done.
Qed.

(** The smart-context block when no source thread is configured. *)
Lemma smartContext_fallback st systemPrompt log :
  App.selectedContextThreadIds st = [] →
  App.smartContext getTime get_messages st systemPrompt log
  = if truthy (App.activeThreadId st)
       && bool_decide (0 < length (App.messages st))
    then (App.Ok (Some (App.withContext systemPrompt
                          (App.recentMessages getTime (App.messages st))),
                  App.sortByCreatedAt getTime (App.messages st)), log)
    else match App.threads st with
         | t :: _ =>
             match get_messages (thread_ident t) with
             | App.Ok msgs =>
                 (App.Ok (App.seededPrompt getTime systemPrompt msgs,
                          App.messages st), log)
             | App.Rejected e =>
                 (App.Ok (systemPrompt, App.messages st),
                  log ++ [App.error_load_smart_context e])
             end
         | [] => (App.Ok (systemPrompt, App.messages st), log)
         end.
Proof.
  intros Hsel. unfold App.smartContext, App.tryCatch. rewrite Hsel. simpl.
  destruct (truthy (App.activeThreadId st)
            && bool_decide (0 < length (App.messages st))) eqn:Hactive.
  - apply andb_true_iff in Hactive as [_ Hlen]. simpl.
    unfold mbind, App.Async_bind. simpl. by rewrite Hlen.
  - destruct (App.threads st) as [|t ts]; simpl.
    + unfold mbind, App.Async_bind. by simpl.
    + unfold mbind, App.Async_bind, App.invokeGetMessages. simpl.
      destruct (get_messages (thread_ident t)) as [[|m msgs]|e]; by simpl.
Qed.
End AssemblerFacts.

Lemma pool_length {A} (f : Z → list A) ids :
  length (concat ((λ t, App.slice_last 5 (f t)) <$> ids)) ≤ 5 * length ids.
Proof.
  induction ids as [|t ids IH]; [simpl; lia|].
  rewrite fmap_cons. cbn [concat length]. rewrite length_app.
  pose proof (slice_last_length 5 (f t)). lia.
Qed.

Lemma contribution_succeeded get_messages ids :
  concat (App.contribution get_messages <$> ids)
  = concat (App.slice_last 5
              <$> omap (λ t, match get_messages t with
                             | App.Ok msgs => Some msgs
                             | App.Rejected _ => None
                             end) ids).
Proof.
  induction ids as [|t ids IH]; [done|].
  rewrite fmap_cons. cbn [concat]. rewrite IH.
  unfold App.contribution. by destruct (get_messages t) eqn:E; simpl; rewrite E.
Qed.

Lemma fetchWarning_none get_messages (logs : Z → list Message) ids :
  (∀ t, t ∈ ids → get_messages t = App.Ok (logs t)) →
  omap (App.fetchWarning get_messages) ids = [] ∧
  concat (App.contribution get_messages <$> ids)
  = concat ((λ t, App.slice_last 5 (logs t)) <$> ids).
Proof.
  induction ids as [|t ids IH]; intros Hok; [done|].
  destruct IH as [IH1 IH2].
  { intros t' Ht'. apply Hok, elem_of_cons. by right. }
  rewrite !fmap_cons. cbn [concat omap list_omap]. rewrite IH1, IH2.
  unfold App.fetchWarning, App.contribution.
  by rewrite (Hok t) by (apply elem_of_cons; by left).
Qed.

Lemma handleNewChat_smart getTime get_messages st newChatTitle log :
  App.isTauriEnv st = true → App.smartContextEnabled st = true →
  App.handleNewChat getTime get_messages st newChatTitle log
  = match App.smartContext getTime get_messages st
            (App.selectedModePrompt st) log with
    | (App.Ok (prompt, msgs), log') =>
        (App.Ok (Some (App.mkNewChat newChatTitle prompt msgs)), log')
    | (App.Rejected e, log') => (App.Rejected e, log')
    end.
Proof.
  intros Htauri Hsmart. unfold App.handleNewChat.
  rewrite Htauri, Hsmart. simpl. unfold mbind, App.Async_bind.
  by destruct (App.smartContext _ _ _ _ _) as [[[prompt msgs]|e] log'].
Qed.

(** C5. With source threads configured (and their fetches resolving), the
    candidate pool is the concatenation of the last five messages of each
    configured thread, in the configured order; the pool is sorted ascending
    by creation time (stably) and cut to its last twenty messages, and each
    of these is rendered as the line ROLE: content, the lines joined by line
    feeds between the two delimiter lines. The pool holds at most five
    messages per thread, and min(20, pool size) messages are rendered. *)
Theorem selected_threads_context getTime get_messages
    (logs : Z → list Message) st newChatTitle log :
  App.isTauriEnv st = true → App.smartContextEnabled st = true →
  App.selectedContextThreadIds st ≠ [] →
  (∀ t, t ∈ App.selectedContextThreadIds st →
        get_messages t = App.Ok (logs t)) →
  let base := App.selectedModePrompt st in
  let lf := String (ascii_of_nat 10) EmptyString in
  let pool := concat ((λ t, drop (length (logs t) - 5) (logs t))
                        <$> App.selectedContextThreadIds st) in
  let sorted := App.sortByCreatedAt getTime pool in
  let recent := drop (length sorted - 20) sorted in
  let contextStr :=
    String.concat lf
      ((λ m, (match role m with user => "USER" | assistant => "ASSISTANT" end
              ++ ": " ++ content m)%string) <$> recent) in
  App.handleNewChat getTime get_messages st newChatTitle log
  = (App.Ok (Some (App.mkNewChat newChatTitle
       (match pool with
        | [] => base
        | _ :: _ =>
            Some (default "" base ++ lf ++ lf
                  ++ "[CONTEXT FROM PREVIOUS SESSION]" ++ lf
                  ++ contextStr ++ lf ++ "[END CONTEXT]" ++ lf)%string
        end)
       (App.messages st))), log) ∧
  length pool ≤ 5 * length (App.selectedContextThreadIds st) ∧
  sorted ≡ₚ pool ∧
  StronglySorted (App.byCreatedAt getTime) sorted ∧
  (∀ time, filter (λ m, getTime (created_at m) = time) sorted
           = filter (λ m, getTime (created_at m) = time) pool) ∧
  length recent = length pool `min` 20.
Proof.
  intros Htauri Hsmart Hsel Hok base lf pool sorted recent contextStr.
  destruct (fetchWarning_none get_messages logs _ Hok) as [Hwarn Hpool].
  split; [|split; [|split; [|split; [|split]]]].
  - rewrite handleNewChat_smart, smartContext_selected by done.
    rewrite Hwarn, Hpool, app_nil_r.
    change (concat ((λ t, App.slice_last 5 (logs t))
                      <$> App.selectedContextThreadIds st)) with pool.
    repeat f_equal.
    unfold App.seededPrompt. destruct pool as [|m pool']; [done|].
    unfold App.withContext. by rewrite renderLines_format.
  - apply (pool_length logs).
  - apply sortByCreatedAt_perm.
  - apply sortByCreatedAt_sorted.
  - intros time. apply sortByCreatedAt_stable.
  - subst recent. rewrite length_drop.
    assert (length sorted = length pool) as ->; [|lia].
    subst sorted. by rewrite (sortByCreatedAt_perm getTime pool).
Qed.

Ltac sample_fetches :=
  let t := fresh "t" in let Ht := fresh "Ht" in
  intros t Ht; apply list_elem_of_In in Ht; simpl in Ht;
  repeat (destruct Ht as [<-|Ht]; [reflexivity|]); destruct Ht.

(** C5, witness: three source threads of eight messages each, interleaved in
    time, give a pool of fifteen messages; all fifteen are rendered, by
    minute and within a minute by thread. *)
Lemma selected_threads_context_witness :
  let st := App.withSources [1%Z; 2%Z; 3%Z] in
  let lf := String (ascii_of_nat 10) EmptyString in
  App.selectedContextThreadIds st ≠ [] ∧
  (∀ t, t ∈ App.selectedContextThreadIds st →
        App.sampleBackend t = App.Ok (App.sampleLog t)) ∧
  App.handleNewChat App.sampleClock App.sampleBackend st "New Chat" []
  = (App.Ok (Some (App.mkNewChat "New Chat"
       (Some (default "" (App.selectedModePrompt st) ++ lf ++ lf
              ++ "[CONTEXT FROM PREVIOUS SESSION]" ++ lf
              ++ String.concat lf
                   ["ASSISTANT: message 3"; "ASSISTANT: message 3";
                    "ASSISTANT: message 3";
                    "USER: message 4"; "USER: message 4"; "USER: message 4";
                    "ASSISTANT: message 5"; "ASSISTANT: message 5";
                    "ASSISTANT: message 5";
                    "USER: message 6"; "USER: message 6"; "USER: message 6";
                    "ASSISTANT: message 7"; "ASSISTANT: message 7";
                    "ASSISTANT: message 7"]
              ++ lf ++ "[END CONTEXT]" ++ lf)%string)
       (App.messages st))), []).
Proof.
  intros st lf.
  assert (App.selectedContextThreadIds st ≠ []) as Hsel by done.
  assert (∀ t, t ∈ App.selectedContextThreadIds st →
               App.sampleBackend t = App.Ok (App.sampleLog t)) as Hok
    by sample_fetches.
  split; [done|]. split; [done|].
  destruct (selected_threads_context App.sampleClock App.sampleBackend
              App.sampleLog st "New Chat" [] eq_refl eq_refl Hsel Hok)
    as (Hrun & _).
  rewrite Hrun. vm_compute. reflexivity.
Defined.

(** C6. With no source thread configured the pool is chosen in this order:
    the messages of the active thread when it has any, all of them;
    otherwise the full log of the first thread of the list (when its fetch
    resolves); otherwise nothing, and the persona prompt is passed on
    unchanged. A chosen pool is sorted by creation time and cut to its last
    twenty messages, which are rendered one line each after the persona
    prompt; an empty log leaves the persona prompt unchanged. *)
Theorem fallback_context getTime get_messages st newChatTitle log :
  App.isTauriEnv st = true → App.smartContextEnabled st = true →
  App.selectedContextThreadIds st = [] →
  let base := App.selectedModePrompt st in
  let lf := String (ascii_of_nat 10) EmptyString in
  let line := λ m : Message,
    (match role m with user => "USER" | assistant => "ASSISTANT" end
     ++ ": " ++ content m)%string in
  let recent := λ pool : list Message,
    drop (length (App.sortByCreatedAt getTime pool) - 20)
      (App.sortByCreatedAt getTime pool) in
  let seeded := λ pool : list Message,
    Some (default "" base ++ lf ++ lf
          ++ "[CONTEXT FROM PREVIOUS SESSION]" ++ lf
          ++ String.concat lf (line <$> recent pool)
          ++ lf ++ "[END CONTEXT]" ++ lf)%string in
  let activeHasMessages :=
    truthy (App.activeThreadId st) = true ∧ App.messages st ≠ [] in
  let result := App.handleNewChat getTime get_messages st newChatTitle log in
  (activeHasMessages →
     result
     = (App.Ok (Some (App.mkNewChat newChatTitle
          (seeded (App.messages st))
          (App.sortByCreatedAt getTime (App.messages st)))), log)) ∧
  (¬ activeHasMessages →
     ∀ t ts msgs,
       App.threads st = t :: ts → get_messages (thread_ident t) = App.Ok msgs →
       result
       = (App.Ok (Some (App.mkNewChat newChatTitle
            (match msgs with
             | [] => base
             | _ :: _ => seeded msgs
             end)
            (App.messages st))), log)) ∧
  (¬ activeHasMessages → App.threads st = [] →
     result
     = (App.Ok (Some (App.mkNewChat newChatTitle base (App.messages st))),
        log)) ∧
  (∀ pool,
     App.sortByCreatedAt getTime pool ≡ₚ pool ∧
     StronglySorted (App.byCreatedAt getTime)
       (App.sortByCreatedAt getTime pool) ∧
     (∀ time,
        filter (λ m, getTime (created_at m) = time)
          (App.sortByCreatedAt getTime pool)
        = filter (λ m, getTime (created_at m) = time) pool) ∧
     length (recent pool) = length pool `min` 20).
Proof.
  intros Htauri Hsmart Hsel base lf line recent seeded activeHasMessages result.
  subst result. rewrite handleNewChat_smart, smartContext_fallback by done.
  fold base.
  assert (truthy (App.activeThreadId st)
          && bool_decide (0 < length (App.messages st)) = true
          ↔ activeHasMessages) as Hactive.
  { unfold activeHasMessages. rewrite andb_true_iff, bool_decide_eq_true.
    destruct (App.messages st); simpl; split; intros [? ?]; split;
      done || lia. }
  assert (∀ pool, Some (App.withContext base (App.recentMessages getTime pool))
                  = seeded pool) as Hseeded.
  { intros pool. unfold App.withContext. by rewrite renderLines_format. }
  split; [|split; [|split]].
  - intros Hyes. apply Hactive in Hyes. by rewrite Hyes, Hseeded.
  - intros Hno t ts msgs Hthreads Hfetch.
    destruct (truthy _ && _) eqn:E; [by destruct Hno; apply Hactive|].
    rewrite Hthreads, Hfetch. unfold App.seededPrompt.
    destruct msgs as [|m msgs]; [done|]. by rewrite Hseeded.
  - intros Hno Hthreads.
    destruct (truthy _ && _) eqn:E; [by destruct Hno; apply Hactive|].
    by rewrite Hthreads.
  - intros pool. split; [apply sortByCreatedAt_perm|].
    split; [apply sortByCreatedAt_sorted|].
    split; [intros time; apply sortByCreatedAt_stable|].
    subst recent. cbv beta. rewrite length_drop.
    rewrite (sortByCreatedAt_perm getTime pool). lia.
Qed.

(** C6, witness: no sources configured and an active thread holding the
    question and its answer. *)
Lemma fallback_context_witness :
  let lf := String (ascii_of_nat 10) EmptyString in
  App.selectedContextThreadIds App.idle = [] ∧
  (truthy (App.activeThreadId App.idle) = true ∧ App.messages App.idle ≠ []) ∧
  App.handleNewChat App.sampleClock App.sampleBackend App.idle "New Chat" []
  = (App.Ok (Some (App.mkNewChat "New Chat"
       (Some (default "" (App.selectedModePrompt App.idle) ++ lf ++ lf
              ++ "[CONTEXT FROM PREVIOUS SESSION]" ++ lf
              ++ "USER: Hi" ++ lf ++ "ASSISTANT: Hello"
              ++ lf ++ "[END CONTEXT]" ++ lf)%string)
       hiHello)), []).
Proof.
  intros lf.
  assert (truthy (App.activeThreadId App.idle) = true ∧
          App.messages App.idle ≠ []) as Hactive by done.
  split; [done|]. split; [done|].
  destruct (fallback_context App.sampleClock App.sampleBackend App.idle
              "New Chat" [] eq_refl eq_refl eq_refl) as (Hfirst & _).
  rewrite (Hfirst Hactive). vm_compute. reflexivity.
Defined.

(** C7. With source threads configured, context assembly never rejects
    whatever the fetches do: a thread whose fetch rejects leaves one warning
    on the console and contributes nothing, and the context is built from
    the last five messages of each thread whose fetch resolved: merged in
    the configured order, sorted by creation time, cut to the last twenty
    and rendered one line each after the persona prompt. Every rendered
    message comes from a thread whose fetch resolved. *)
Theorem partial_fetch_failure getTime get_messages st newChatTitle log :
  App.isTauriEnv st = true → App.smartContextEnabled st = true →
  App.selectedContextThreadIds st ≠ [] →
  let base := App.selectedModePrompt st in
  let lf := String (ascii_of_nat 10) EmptyString in
  let succeeded :=
    omap (λ t, match get_messages t with
               | App.Ok msgs => Some msgs
               | App.Rejected _ => None
               end) (App.selectedContextThreadIds st) in
  let warnings :=
    omap (λ t, match get_messages t with
               | App.Ok _ => None
               | App.Rejected e => Some (App.warn_fetch_context t e)
               end) (App.selectedContextThreadIds st) in
  let pool := concat ((λ msgs, drop (length msgs - 5) msgs) <$> succeeded) in
  let sorted := App.sortByCreatedAt getTime pool in
  let recent := drop (length sorted - 20) sorted in
  let contextStr :=
    String.concat lf
      ((λ m, (match role m with user => "USER" | assistant => "ASSISTANT" end
              ++ ": " ++ content m)%string) <$> recent) in
  App.handleNewChat getTime get_messages st newChatTitle log
  = (App.Ok (Some (App.mkNewChat newChatTitle
       (match pool with
        | [] => base
        | _ :: _ =>
            Some (default "" base ++ lf ++ lf
                  ++ "[CONTEXT FROM PREVIOUS SESSION]" ++ lf
                  ++ contextStr ++ lf ++ "[END CONTEXT]" ++ lf)%string
        end)
       (App.messages st))),
     log ++ warnings) ∧
  (∀ t e, t ∈ App.selectedContextThreadIds st →
          get_messages t = App.Rejected e →
          App.warn_fetch_context t e ∈ warnings) ∧
  (∀ m, m ∈ recent →
        ∃ t msgs, t ∈ App.selectedContextThreadIds st ∧
                  get_messages t = App.Ok msgs ∧
                  m ∈ drop (length msgs - 5) msgs) ∧
  sorted ≡ₚ pool ∧
  StronglySorted (App.byCreatedAt getTime) sorted ∧
  (∀ time, filter (λ m, getTime (created_at m) = time) sorted
           = filter (λ m, getTime (created_at m) = time) pool) ∧
  length recent = length pool `min` 20.
Proof.
  intros Htauri Hsmart Hsel base lf succeeded warnings pool sorted recent
    contextStr.
  split; [|split; [|split; [|split; [|split; [|split]]]]].
  - rewrite handleNewChat_smart, smartContext_selected by done.
    rewrite contribution_succeeded.
    assert (concat (App.slice_last 5 <$> succeeded) = pool) as Hpool
      by reflexivity.
    unfold succeeded in Hpool. rewrite Hpool.
    repeat f_equal.
    unfold App.seededPrompt. destruct pool as [|m pool']; [done|].
    unfold App.withContext. by rewrite renderLines_format.
  - intros t e Ht He. apply list_elem_of_omap. exists t. split; [done|].
    by rewrite He.
  - intros m Hm.
    assert (m ∈ pool) as Hpool.
    { rewrite <- (sortByCreatedAt_perm getTime pool). fold sorted.
      rewrite <- (take_drop (length sorted - 20) sorted).
      apply elem_of_app. by right. }
    apply list_elem_of_In, in_concat in Hpool as (tail & Htail & Hin).
    apply list_elem_of_In in Htail, Hin.
    apply list_elem_of_fmap in Htail as (msgs & -> & Hmsgs).
    apply list_elem_of_omap in Hmsgs as (t & Ht & Hfetch).
    exists t, msgs. split; [done|]. split; [|done].
    by destruct (get_messages t) as [msgs'|e]; simplify_eq.
  - apply sortByCreatedAt_perm.
  - apply sortByCreatedAt_sorted.
  - intros time. apply sortByCreatedAt_stable.
  - subst recent. rewrite length_drop.
    assert (length sorted = length pool) as ->; [|lia].
    subst sorted. by rewrite (sortByCreatedAt_perm getTime pool).
Qed.

(** C7, witness: the second of three configured threads does not exist; the
    other two still give their ten messages, and one warning is logged. *)
Lemma partial_fetch_failure_witness :
  let st := App.withSources [1%Z; 9%Z; 3%Z] in
  let lf := String (ascii_of_nat 10) EmptyString in
  App.selectedContextThreadIds st ≠ [] ∧
  App.handleNewChat App.sampleClock App.sampleBackend st "New Chat" []
  = (App.Ok (Some (App.mkNewChat "New Chat"
       (Some (default "" (App.selectedModePrompt st) ++ lf ++ lf
              ++ "[CONTEXT FROM PREVIOUS SESSION]" ++ lf
              ++ String.concat lf
                   ["ASSISTANT: message 3"; "ASSISTANT: message 3";
                    "USER: message 4"; "USER: message 4";
                    "ASSISTANT: message 5"; "ASSISTANT: message 5";
                    "USER: message 6"; "USER: message 6";
                    "ASSISTANT: message 7"; "ASSISTANT: message 7"]
              ++ lf ++ "[END CONTEXT]" ++ lf)%string)
       (App.messages st))),
     [App.warn_fetch_context 9 "no such thread"]).
Proof.
  intros st lf.
  assert (App.selectedContextThreadIds st ≠ []) as Hsel by done.
  split; [done|].
  destruct (partial_fetch_failure App.sampleClock App.sampleBackend st
              "New Chat" [] eq_refl eq_refl Hsel) as (Hrun & _).
  rewrite Hrun. vm_compute. reflexivity.
Defined.

(** ** Why the ids must be unique *)

(** The properties above assume the data-model invariant that ids are
    unique. Without it the second of two messages sharing an id takes over
    the map entry: its node is pushed for both, and here it becomes a root
    and its own child. *)
Remark duplicate_ids_self_child :
  inForest (buildMessageTree duplicateIds) 1 ∧
  child (nodes (buildMessageTree duplicateIds)) 1 1.
Proof.
  split.
  - exists 1. split; [by apply list_elem_of_lookup_2 with 0|done].
  - eexists. split; [reflexivity|]. by apply list_elem_of_lookup_2 with 0.
Qed.

(** On such a forest the search of the streaming graft never returns. *)
Remark duplicate_ids_search_diverges fuel :
  messageTree fuel "now" duplicateIds true "S" = None.
Proof.
  unfold messageTree.
  change (last duplicateIds) with (Some (mk 2 user "c" (Some 9%Z))).
  cbn [reply_to_id mk truthy negb Z.eqb id].
  set (h := nodes (buildMessageTree duplicateIds) ++ _).
  assert (h !! 1 = Some (mkNode (mk 1 user "b" (Some 1%Z)) [1])) as Hnode
    by reflexivity.
  assert (roots (buildMessageTree duplicateIds) = [1; 2]) as -> by reflexivity.
  assert (∀ ns, attachToNode fuel 2 (length (nodes (buildMessageTree duplicateIds)))
                  h (1 :: ns) = None) as Hloop.
  { induction fuel as [|fuel IH]; intros ns; [done|].
    simpl. rewrite Hnode. simpl. by rewrite IH. }
  by rewrite Hloop.
Qed.

(** * Further properties of the tree builder *)

Lemma filter_seq_sorted (P : nat → Prop) `{!∀ j, Decision (P j)} a n :
  StronglySorted lt (filter P (seq a n)).
Proof.
  revert a. induction n as [|n IH]; intros a; simpl; [constructor|].
  rewrite filter_cons. case_decide; [|apply IH].
  constructor; [apply IH|]. apply Forall_forall.
  intros j [_ Hj%elem_of_seq]%list_elem_of_filter. lia.
Qed.

(** X2. With unique ids the root array and every children array list their
    messages in input order: by strictly ascending position. *)
Theorem build_keeps_input_order messages :
  unique_ids messages →
  StronglySorted lt (roots (buildMessageTree messages)) ∧
  ∀ p nd, nodes (buildMessageTree messages) !! p = Some nd →
          StronglySorted lt (children nd).
Proof.
  intros Hnd. split.
  - rewrite build_roots by done. apply filter_seq_sorted.
  - intros p nd. rewrite build_nodes_lookup by done.
    destruct (patchedMessages messages !! p); simpl; [|done].
    intros [= <-]. simpl. apply filter_seq_sorted.
Qed.

Lemma build_keeps_input_order_witness :
  unique_ids replyThread ∧
  StronglySorted lt (roots (buildMessageTree replyThread)) ∧
  ∀ p nd, nodes (buildMessageTree replyThread) !! p = Some nd →
          StronglySorted lt (children nd).
Proof.
  assert (unique_ids replyThread) as Hnd by unique_by_computation.
  split; [done|]. apply (build_keeps_input_order replyThread Hnd).
Defined.

(** X3. With unique ids, node [c] is in the children array of node [p]
    exactly when the working reply_to_id of message [c] is the non-zero id of
    message [p]. *)
Theorem children_are_replies messages p c :
  unique_ids messages →
  child (nodes (buildMessageTree messages)) p c
  ↔ ∃ mp mc, messages !! p = Some mp ∧
             patchedMessages messages !! c = Some mc ∧
             reply_to_id mc = Some (id mp) ∧ id mp ≠ 0%Z.
Proof.
  intros Hnd. rewrite build_child_iff by done. unfold parentIndex. split.
  - destruct (patchedMessages messages !! c) as [mc|]; simpl; [|done].
    destruct (truthy (reply_to_id mc)) eqn:Ht; [|done].
    destruct (reply_to_id mc) as [k|] eqn:Hk; simpl; [|done].
    intros (mp & Hmp & <-)%indexOfId_Some.
    exists mp, mc. repeat split; try done.
    simpl in Ht. intros Hz. by rewrite Hz in Ht.
  - intros (mp & mc & Hmp & -> & Hk & Hz). simpl. rewrite Hk. simpl.
    apply Z.eqb_neq in Hz. rewrite Hz. simpl. by apply indexOfId_own.
Qed.

Lemma children_are_replies_witness :
  unique_ids replyThread ∧
  (child (nodes (buildMessageTree replyThread)) 0 2
   ↔ ∃ mp mc, replyThread !! 0 = Some mp ∧
              patchedMessages replyThread !! 2 = Some mc ∧
              reply_to_id mc = Some (id mp) ∧ id mp ≠ 0%Z).
Proof.
  assert (unique_ids replyThread) as Hnd by unique_by_computation.
  split; [done|]. apply (children_are_replies replyThread 0 2 Hnd).
Defined.

Lemma patch_cases messages j m :
  patch messages j m = m ∨
  ∃ prev, 0 < j ∧ messages !! (j - 1) = Some prev ∧
          role prev = user ∧ role m = assistant ∧
          truthy (reply_to_id m) = false ∧
          patch messages j m = with_reply_to_id m (Some (id prev)).
Proof.
  unfold patch.
  destruct (bool_decide (role m = assistant)) eqn:Hr; [|by left].
  destruct (truthy (reply_to_id m)) eqn:Ht; [by left|].
  destruct (bool_decide (0 < j)) eqn:Hj; [|by left]. simpl.
  destruct (messages !! (j - 1)) as [prev|] eqn:Hprev; [|by left].
  destruct (bool_decide (role prev = user)) eqn:Hu; [|by left].
  apply bool_decide_eq_true in Hr, Hj, Hu. right. by exists prev.
Qed.

Lemma parentIndex_back messages j p :
  unique_ids messages → replies_point_back messages →
  parentIndex messages j = Some p → p < j.
Proof.
  intros Hnd Hback. unfold parentIndex.
  rewrite patchedMessages_lookup.
  destruct (messages !! j) as [m|] eqn:Hm; simpl; [|done].
  destruct (patch_cases messages j m)
    as [->|(prev & Hj & Hprev & _ & _ & _ & ->)].
  - destruct (truthy (reply_to_id m)) eqn:Ht; [|done].
    intros Hp. by eapply Hback.
  - simpl. destruct (negb _); [|done]. simpl.
    rewrite (indexOfId_own _ _ _ Hnd Hprev). intros [= <-]. lia.
Qed.

Lemma back_links_rooted messages :
  unique_ids messages → replies_point_back messages →
  reply_chains_end messages.
Proof.
  intros Hnd Hback j. induction (lt_wf j) as [j _ IH]. intros Hj.
  destruct (parentIndex messages j) as [p|] eqn:Hp.
  - pose proof (parentIndex_back _ _ _ Hnd Hback Hp) as Hlt.
    destruct (IH p Hlt) as [d Hd]; [lia|].
    exists (S d). by econstructor.
  - exists 0. by constructor.
Qed.

(** X4. When ids are unique and every stored reply link that matches a
    loaded message matches an earlier one, rendering the built forest ends
    and shows every message exactly once. *)
Theorem chronological_replies_lose_nothing fuel messages :
  unique_ids messages → replies_point_back messages →
  length messages < fuel →
  ∃ l, forestNodes fuel (nodes (buildMessageTree messages))
         (roots (buildMessageTree messages)) = Some l ∧
       l ≡ₚ seq 0 (length messages).
Proof.
  intros Hnd Hback Hfuel.
  apply (forestNodes_all (build_linked _ Hnd)); [done|].
  by apply back_links_rooted.
Qed.

Lemma chronological_replies_lose_nothing_witness :
  unique_ids replyThread ∧ replies_point_back replyThread ∧ 3 < 4 ∧
  ∃ l, forestNodes 4 (nodes (buildMessageTree replyThread))
         (roots (buildMessageTree replyThread)) = Some l ∧
       l ≡ₚ seq 0 3.
Proof.
  assert (unique_ids replyThread) as Hnd by unique_by_computation.
  assert (replies_point_back replyThread) as Hback.
  { intros [|[|[|j]]] m p Hm Ht; simpl in Hm; simplify_eq; simpl in *;
      try done; vm_compute; intros [= <-]; lia. }
  split; [done|]. split; [done|]. split; [lia|].
  apply (chronological_replies_lose_nothing 4 replyThread Hnd Hback).
  simpl. lia.
Defined.

Lemma attachToNode_outcome fuel k s h ls b h' :
  attachToNode fuel k s h ls = Some (b, h') →
  (b = false ∧ h' = h) ∨
  (b = true ∧ ∃ r x nd, r ∈ ls ∧ rtc (child h) r x ∧ h !! x = Some nd ∧
                         id (msg nd) = k ∧ h' = pushChild h x s).
Proof.
  revert ls b h'. induction fuel as [|fuel IH]; intros ls b h'; [done|].
  simpl. induction ls as [|n rest IHls]; simpl.
  - intros [= <- <-]. by left.
  - destruct (h !! n) as [node|] eqn:Hn; [|done].
    case_bool_decide as Hid.
    + intros [= <- <-]. right. split; [done|].
      exists n, n, node. repeat split; try done. apply elem_of_cons. by left.
    + destruct (attachToNode fuel k s h (children node)) as [[[|] h1]|] eqn:E;
        [| |done].
      * intros [= <- <-]. right. split; [done|].
        apply IH in E as [[? _]|[_ (r & x & nd & Hr & Hrx & Hx & Hk & ->)]];
          [done|].
        exists n, x, nd. repeat split; try done; [apply elem_of_cons; by left|].
        eapply rtc_l; [|done]. by exists node.
      * intros [[? ?]|[? (r & x & nd & Hr & ?)]]%IHls; [by left|right].
        split; [done|]. exists r, x, nd. split; [|done].
        apply elem_of_cons. by right.
Qed.

Lemma linkNode_roots_lt n s P :
  (∀ k i, messageMap s !! k = Some i → i < n) →
  Forall (λ r, r < n) (rootsB s) →
  Forall (λ r, r < n) (rootsB (foldl linkNode s P)).
Proof.
  revert s. induction P as [|m P IH]; intros s Hmm Hroots; simpl; [done|].
  apply IH; [by rewrite linkNode_messageMap|].
  unfold linkNode. destruct (messageMap s !! id m) as [node|] eqn:Hnode; [|done].
  destruct (parentRef (messageMap s) m); simpl; [done|].
  apply Forall_app. split; [done|]. apply Forall_singleton. by eapply Hmm.
Qed.

(** Whatever the ids, the root array only holds references to the objects
    of the first pass. *)
Lemma build_roots_lt messages r :
  r ∈ roots (buildMessageTree messages) → r < length messages.
Proof.
  intros Hr.
  assert (Forall (λ r, r < length messages)
            (roots (buildMessageTree messages))) as Hall.
  { apply linkNode_roots_lt.
    - intros k i (m & Hm%lookup_lt_Some & _)%setNode_map_sound.
      by rewrite patchedMessages_length in Hm.
    - by rewrite setNode_roots. }
  by eapply Forall_forall in Hall.
Qed.

Lemma reach_before_graft messages sn r x :
  r < length messages →
  rtc (child (nodes (buildMessageTree messages) ++ [sn])) r x →
  x < length messages ∧ rtc (child (nodes (buildMessageTree messages))) r x.
Proof.
  intros Hr Hpath. revert x Hpath.
  apply rtc_ind_r; [done|].
  intros y z _ (nd & Hy & Hz) [Hylt IH].
  rewrite lookup_app_l in Hy by (by rewrite buildMessageTree_length).
  split; [by eapply build_children_lt|].
  eapply rtc_r; [done|]. by exists nd.
Qed.

(** X5. For every input list, duplicates and cycles included: when the memo
    returns under streaming, its forest is the built one with the streaming
    node pushed exactly once, either as a new last root or as a new last
    child of one node of the forest that carries the last message's id; the
    second only when the last message has a reply_to_id set. *)
Theorem graft_is_one_push fuel now messages streamingContent f :
  messageTree fuel now messages true streamingContent = Some f →
  let tree := buildMessageTree messages in
  let h := nodes tree ++ [streamingNode now streamingContent] in
  (nodes f = h ∧ roots f = roots tree ++ [length messages]) ∨
  (roots f = roots tree ∧
   ∃ x nd lastMessage,
     nodes f = pushChild h x (length messages) ∧
     inForest tree x ∧ x < length messages ∧
     nodes tree !! x = Some nd ∧ id (msg nd) = id lastMessage ∧
     last messages = Some lastMessage ∧
     truthy (reply_to_id lastMessage) = true).
Proof.
  intros Hf tree h. unfold messageTree in Hf. cbv zeta in Hf.
  rewrite buildMessageTree_length in Hf. fold tree in Hf. fold h in Hf.
  destruct (last messages) as [m|] eqn:Hlast;
    [|apply (inj Some) in Hf as <-; by left].
  destruct (truthy (reply_to_id m)) eqn:Ht;
    [|apply (inj Some) in Hf as <-; by left].
  destruct (attachToNode _ _ _ _ _) as [[b h']|] eqn:E; [|done].
  apply attachToNode_outcome in E
    as [[-> ->]|[-> (r & x & nd & Hr & Hrx & Hx & Hid & ->)]];
    apply (inj Some) in Hf as <-; [by left|right].
  split; [done|].
  apply build_roots_lt in Hr as Hrlt.
  destruct (reach_before_graft _ _ _ _ Hrlt Hrx) as [Hxlt Hpath].
  subst h tree.
  rewrite lookup_app_l in Hx by (by rewrite buildMessageTree_length).
  exists x, nd, m. repeat split; try done. by exists r.
Qed.

Lemma graft_is_one_push_witness :
  ∃ f, messageTree 4 "now" replyCycle true "S" = Some f ∧
       nodes f = nodes (buildMessageTree replyCycle) ++ [streamingNode "now" "S"] ∧
       roots f = [2].
Proof.
  eexists. split; [reflexivity|].
  destruct (graft_is_one_push 4 "now" replyCycle "S" _ eq_refl)
    as [[Hn Hr]|[_ (x & nd & m & _ & (r & Hin & _) & _)]].
  - split; [exact Hn|exact Hr].
  - exfalso. by apply elem_of_nil in Hin.
Defined.

Lemma plain_chat_parent messages j i :
  unique_ids messages → plain_chat messages →
  parentIndex messages j = Some i ↔ j = S i ∧ answers_previous messages j.
Proof.
  intros Hnd Hplain. unfold parentIndex. rewrite patchedMessages_lookup. split.
  - destruct (messages !! j) as [m|] eqn:Hm; simpl; [|done].
    destruct (Hplain m) as [Hnone _]; [by eapply list_elem_of_lookup_2|].
    destruct (patch_cases messages j m)
      as [->|(prev & Hj & Hprev & Hu & Ha & _ & ->)].
    + by rewrite Hnone.
    + simpl. destruct (negb _); [|done]. simpl.
      rewrite (indexOfId_own _ _ _ Hnd Hprev). intros [= <-].
      split; [lia|]. by exists prev, m.
  - intros [-> (prev & m & _ & Hprev & Hm & Hu & Ha)].
    simpl in Hprev. rewrite Nat.sub_0_r in Hprev.
    destruct (Hplain m) as [Hnone _]; [by eapply list_elem_of_lookup_2|].
    destruct (Hplain prev) as [_ Hz]; [by eapply list_elem_of_lookup_2|].
    rewrite Hm. simpl. unfold patch.
    rewrite Hnone, bool_decide_true by done. simpl.
    rewrite Nat.sub_0_r, Hprev, bool_decide_true by done. simpl.
    apply Z.eqb_neq in Hz. rewrite Hz. simpl. by apply indexOfId_own.
Qed.

Lemma nodup_only (l : list nat) k :
  NoDup l → (∀ c, c ∈ l → c = k) → l = [] ∨ l = [k].
Proof.
  intros Hnd Hall. destruct l as [|a [|b l]]; [by left| |].
  - right. f_equal. apply Hall, elem_of_cons. by left.
  - exfalso. apply NoDup_cons in Hnd as [Hab _]. apply Hab.
    assert (a = k) as -> by (apply Hall, elem_of_cons; by left).
    assert (b = k) as ->
      by (apply Hall, elem_of_cons; right; apply elem_of_cons; by left).
    apply elem_of_cons. by left.
Qed.

(** X7. In a conversation without explicit replies (unique, non-zero ids)
    the forest pairs each answer with its question: the children of a node
    are the next message alone when that is an assistant message directly
    after this user message, and empty otherwise; the roots are the messages
    that are not such answers. *)
Theorem plain_chat_pairs messages :
  unique_ids messages → plain_chat messages →
  (∀ i nd, nodes (buildMessageTree messages) !! i = Some nd →
     (answers_previous messages (S i) → children nd = [S i]) ∧
     (¬ answers_previous messages (S i) → children nd = [])) ∧
  (∀ r, r ∈ roots (buildMessageTree messages)
        ↔ r < length messages ∧ ¬ answers_previous messages r).
Proof.
  intros Hnd Hplain. pose proof (build_linked _ Hnd) as HL. split.
  - intros i nd Hi.
    assert (∀ c, c ∈ children nd ↔ c = S i ∧ answers_previous messages c)
      as Hmem.
    { intros c. rewrite (linked_children _ _ _ _ HL _ _ _ Hi).
      by apply plain_chat_parent. }
    destruct (nodup_only (children nd) (S i)) as [Hl|Hl].
    + by eapply linked_children_nodup.
    + by intros c [-> _]%Hmem.
    + split; [|done]. intros Hans.
      assert (S i ∈ children nd) as Hin by (by apply Hmem).
      rewrite Hl in Hin. by apply elem_of_nil in Hin.
    + split; [done|]. intros Hno. exfalso. apply Hno.
      assert (S i ∈ children nd) as Hin
        by (rewrite Hl; apply elem_of_cons; by left).
      by apply Hmem in Hin as [_ ?].
  - intros r. rewrite build_root_iff by done. split.
    + intros [Hr Hp]. split; [done|]. intros Hans.
      destruct r as [|r]; [destruct Hans as (? & ? & ? & _); lia|].
      by rewrite (proj2 (plain_chat_parent _ (S r) r Hnd Hplain)) in Hp.
    + intros [Hr Hno]. split; [done|].
      destruct (parentIndex messages r) as [i|] eqn:Hp; [|done].
      by apply plain_chat_parent in Hp as [_ ?].
Qed.

Lemma plain_chat_pairs_witness :
  unique_ids hiHello ∧ plain_chat hiHello ∧
  children <$> nodes (buildMessageTree hiHello) !! 0 = Some [1] ∧
  (0 ∈ roots (buildMessageTree hiHello)
   ↔ 0 < length hiHello ∧ ¬ answers_previous hiHello 0).
Proof.
  assert (unique_ids hiHello) as Hnd by unique_by_computation.
  assert (plain_chat hiHello) as Hplain.
  { intros m Hm. apply list_elem_of_In in Hm. simpl in Hm.
    destruct Hm as [<-|[<-|[]]]; by split. }
  split; [done|]. split; [done|].
  destruct (plain_chat_pairs hiHello Hnd Hplain) as [Hchildren Hroots].
  split; [|apply Hroots].
  destruct (nodes (buildMessageTree hiHello) !! 0) as [nd|] eqn:E; [|done].
  destruct (Hchildren 0 nd E) as [Hyes _]. simpl. f_equal. apply Hyes.
  exists (mk 1 user "Hi" None), (mk 2 assistant "Hello" None).
  repeat split; try done. lia.
Defined.

(** * Further properties of the stream reconciler *)

Lemma string_app_cons x (a b : string) :
  (String x a ++ b = String x (a ++ b))%string.
Proof. reflexivity. Qed.

Lemma string_app_assoc (a b c : string) :
  ((a ++ b) ++ c = a ++ (b ++ c))%string.
Proof. induction a as [|x a IH]; [done|]. by rewrite !string_app_cons, IH. Qed.

Lemma string_app_empty_r (a : string) : (a ++ "" = a)%string.
Proof. induction a as [|x a IH]; [done|]. by rewrite string_app_cons, IH. Qed.

Lemma run_app st evs1 evs2 :
  App.run st (evs1 ++ evs2)
  = let '(st1, c1) := App.run st evs1 in
    let '(st2, c2) := App.run st1 evs2 in
    (st2, c1 ++ c2).
Proof.
  revert st. induction evs1 as [|ev evs1 IH]; intros st; simpl.
  - by destruct (App.run st evs2).
  - destruct (App.step st ev) as [st1 c1]. rewrite IH.
    destruct (App.run st1 evs1) as [st2 c2].
    destruct (App.run st2 evs2) as [st3 c3]. by rewrite app_assoc.
Qed.

Lemma string_concat_cons p (l : list string) :
  String.concat "" (p :: l) = (p ++ String.concat "" l)%string.
Proof. destruct l; simpl; [by rewrite string_app_empty_r|done]. Qed.

Lemma run_deltas st payloads :
  App.run st (App.StreamResponse <$> payloads)
  = (App.setStreamingContent st
       (App.streamingContent st ++ String.concat "" payloads)%string, []).
Proof.
  revert st. induction payloads as [|p payloads IH]; intros st.
  - simpl. rewrite string_app_empty_r. by destruct st.
  - rewrite fmap_cons, string_concat_cons. cbn [App.run App.step].
    rewrite IH. simpl. by rewrite string_app_assoc.
Qed.

(** X8. Deltas are appended to the buffer in arrival order and touch
    nothing else: after any sequence of stream-response events the buffer is
    the old buffer followed by the payloads in order, the messages and the
    streaming flag are as before, and nothing was sent to the backend. *)
Theorem deltas_accumulate st payloads :
  let '(st', cmds) := App.run st (App.StreamResponse <$> payloads) in
  App.streamingContent st'
  = (App.streamingContent st ++ String.concat "" payloads)%string ∧
  App.messages st' = App.messages st ∧
  App.isStreaming st' = App.isStreaming st ∧
  App.activeThreadId st' = App.activeThreadId st ∧
  cmds = [].
Proof. by rewrite run_deltas. Qed.

(** X9. One whole generation under Tauri with an active thread: sending
    appends the optimistic user message, raises the flag and issues one
    send_message; the deltas that follow make the buffer exactly their
    concatenation, whatever the buffer held before; stream-done lowers the
    flag, empties the buffer and asks for the thread's messages, and the
    loaded list then replaces the local one, optimistic message included. *)
Theorem generation_cycle st threadId dateNow isoNow content images pdfs
    replyToId payloads loaded :
  App.activeThreadId st = Some threadId → threadId ≠ 0%Z →
  App.isTauriEnv st = true →
  let '(st1, c1) :=
    App.run st (App.SendMessage dateNow isoNow content images pdfs replyToId
                :: (App.StreamResponse <$> payloads)) in
  let '(st2, c2) :=
    App.run st1 [App.StreamDone; App.MessagesLoaded (App.Ok loaded)] in
  (App.isStreaming st1 = true ∧
   App.streamingContent st1 = String.concat "" payloads ∧
   App.messages st1
   = App.messages st
     ++ [mkMessage dateNow threadId user content images isoNow replyToId None] ∧
   c1 = [App.invoke_send_message threadId content images pdfs
           (App.selectedModel st) replyToId]) ∧
  (App.isStreaming st2 = false ∧
   App.streamingContent st2 = ""%string ∧
   App.messages st2 = loaded ∧
   c2 = [App.invoke_get_messages threadId]).
Proof.
  intros Hactive Hz Htauri.
  cbn [App.run App.step]. rewrite Hactive, Htauri.
  apply Z.eqb_neq in Hz. cbn [truthy]. rewrite Hz. cbn [negb].
  rewrite run_deltas. simpl. rewrite Hactive. simpl. by rewrite Hz.
Qed.

Lemma generation_cycle_witness :
  let '(st1, c1) :=
    App.run App.idle
      (App.SendMessage 1700000000000 "2025-01-01T00:01:00.000Z" "And then?"
         None None None :: (App.StreamResponse <$> ["par"; "tial"]%string)) in
  let '(st2, c2) :=
    App.run st1 [App.StreamDone; App.MessagesLoaded (App.Ok hiHello)] in
  App.streamingContent st1 = "partial"%string ∧
  App.messages st2 = hiHello ∧
  c2 = [App.invoke_get_messages 7].
Proof.
  pose proof (generation_cycle App.idle 7 1700000000000
                "2025-01-01T00:01:00.000Z" "And then?" None None None
                ["par"; "tial"]%string hiHello eq_refl ltac:(done) eq_refl) as H.
  destruct (App.run App.idle _) as [st1 c1].
  destruct (App.run st1 _) as [st2 c2].
  destruct H as [(_ & Hbuf & _) (_ & _ & Hmsgs & Hcmd)].
  split; [exact Hbuf|]. split; [exact Hmsgs|exact Hcmd].
Defined.



(** * Optimistic updates of the message list *)

Lemma findIndex_Some prev messageId index :
  Ui.findIndex prev messageId = Some index →
  ∃ m, prev !! index = Some m ∧ id m = messageId ∧
       ∀ x, x ∈ take index prev → id x ≠ messageId.
Proof.
  unfold Ui.findIndex.
  destruct (list_find _ prev) as [[i m]|] eqn:E; simpl; [|done].
  intros [= ->]. apply list_find_Some in E as (Hm & Hid & Hbefore).
  exists m. split; [done|]. split; [done|].
  intros x [j Hj]%list_elem_of_lookup_1.
  apply lookup_take_Some in Hj as [Hj Hlt]. by eapply Hbefore.
Qed.

Lemma findIndex_None prev messageId :
  Ui.findIndex prev messageId = None ↔ messageId ∉ id <$> prev.
Proof.
  unfold Ui.findIndex. split.
  - destruct (list_find _ prev) as [[i m]|] eqn:E; simpl; [done|].
    intros _ (m & -> & Hm)%list_elem_of_fmap.
    apply list_find_None in E. rewrite Forall_forall in E. by apply (E m).
  - intros Hno. destruct (list_find _ prev) as [[i m]|] eqn:E; [|done].
    apply list_find_Some in E as (Hm & <- & _). exfalso. apply Hno.
    apply list_elem_of_fmap. exists m. split; [done|].
    by eapply list_elem_of_lookup_2.
Qed.

Lemma findIndex_present prev messageId :
  messageId ∈ id <$> prev → is_Some (Ui.findIndex prev messageId).
Proof.
  intros Hin. destruct (Ui.findIndex prev messageId) eqn:E; [done|].
  by apply findIndex_None in E.
Qed.

(** X11. Regenerating from a message cuts the local list just before the
    first message with that id: what is kept is a prefix holding no message
    with the id, the message itself and all later ones are gone; when no
    message has the id the list is left as it is. *)
Theorem regenerate_truncates prev messageId :
  (messageId ∈ id <$> prev →
     ∃ m rest, prev = Ui.regenerateFrom prev messageId ++ m :: rest ∧
               id m = messageId) ∧
  (messageId ∉ id <$> prev → Ui.regenerateFrom prev messageId = prev) ∧
  (∀ x, x ∈ Ui.regenerateFrom prev messageId → id x ≠ messageId).
Proof.
  unfold Ui.regenerateFrom. split; [|split].
  - intros [index Hi]%findIndex_present. rewrite Hi.
    apply findIndex_Some in Hi as (m & Hm & Hid & _).
    exists m, (drop (S index) prev). split; [|done].
    by rewrite take_drop_middle.
  - intros Hno%findIndex_None. by rewrite Hno.
  - destruct (Ui.findIndex prev messageId) as [index|] eqn:Hi.
    + by apply findIndex_Some in Hi as (m & _ & _ & Hbefore).
    + apply findIndex_None in Hi. intros x Hx Hid. apply Hi.
      apply list_elem_of_fmap. by exists x.
Qed.

Lemma regenerate_truncates_witness :
  2%Z ∈ id <$> replyThread ∧
  ∃ m rest, replyThread = Ui.regenerateFrom replyThread 2 ++ m :: rest ∧
            id m = 2%Z.
Proof.
  assert (2%Z ∈ id <$> replyThread) as Hin
    by (by apply list_elem_of_lookup_2 with 1).
  split; [exact Hin|].
  destruct (regenerate_truncates replyThread 2) as (Hcut & _).
  exact (Hcut Hin).
Defined.

Lemma edit_shape prev messageId newContent :
  (messageId ∈ id <$> prev →
     ∃ before m rest,
       prev = before ++ m :: rest ∧
       Ui.editAt prev messageId newContent
       = before ++ [Ui.with_content m newContent]) ∧
  (messageId ∉ id <$> prev → Ui.editAt prev messageId newContent = prev).
Proof.
  unfold Ui.editAt. split.
  - intros [index Hi]%findIndex_present. rewrite Hi.
    apply findIndex_Some in Hi as (m & Hm & _).
    exists (take index prev), m, (drop (S index) prev).
    split; [by rewrite take_drop_middle|].
    rewrite (take_S_r _ _ _ Hm).
    pose proof (lookup_lt_Some _ _ _ Hm) as Hlt.
    rewrite alter_app_r_alt by (rewrite length_take; lia).
    rewrite length_take. by replace (index - index `min` length prev) with 0 by lia.
  - intros Hno%findIndex_None. by rewrite Hno.
Qed.

(** X12. Editing a message cuts the local list just after the first message
    with that id and replaces that message's content, nothing else: the
    messages before it are kept as they are and all later ones are gone;
    when no message has the id the list is left as it is. *)
Theorem edit_truncates prev messageId newContent :
  (messageId ∈ id <$> prev →
     ∃ before m rest,
       prev = before ++ m :: rest ∧ id m = messageId ∧
       (∀ x, x ∈ before → id x ≠ messageId) ∧
       Ui.editAt prev messageId newContent
       = before ++ [Ui.with_content m newContent]) ∧
  (messageId ∉ id <$> prev → Ui.editAt prev messageId newContent = prev).
Proof.
  unfold Ui.editAt. split.
  - intros [index Hi]%findIndex_present. rewrite Hi.
    apply findIndex_Some in Hi as (m & Hm & Hid & Hbefore).
    exists (take index prev), m, (drop (S index) prev).
    split; [by rewrite take_drop_middle|]. split; [done|]. split; [done|].
    rewrite (take_S_r _ _ _ Hm).
    pose proof (lookup_lt_Some _ _ _ Hm) as Hlt.
    rewrite alter_app_r_alt by (rewrite length_take; lia).
    rewrite length_take. by replace (index - index `min` length prev) with 0 by lia.
  - intros Hno%findIndex_None. by rewrite Hno.
Qed.

Lemma edit_truncates_witness :
  2%Z ∈ id <$> replyThread ∧
  ∃ before m rest,
    replyThread = before ++ m :: rest ∧ id m = 2%Z ∧
    (∀ x, x ∈ before → id x ≠ 2%Z) ∧
    Ui.editAt replyThread 2 "better"
    = before ++ [Ui.with_content m "better"].
Proof.
  assert (2%Z ∈ id <$> replyThread) as Hin
    by (by apply list_elem_of_lookup_2 with 1).
  split; [exact Hin|].
  destruct (edit_truncates replyThread 2 "better") as (Hcut & _).
  exact (Hcut Hin).
Defined.

Lemma indexOfId_prefix l1 l2 k p :
  indexOfId l1 k = Some p → indexOfId (l1 ++ l2) k = Some p.
Proof.
  unfold indexOfId. rewrite fmap_app.
  destruct (list_find _ (id <$> l1)) as [[i x]|] eqn:E; simpl; [|done].
  intros [= ->].
  by rewrite (proj2 (list_find_app_Some _ _ (id <$> l2) p x) (or_introl E)).
Qed.

Lemma unique_prefix l1 l2 : unique_ids (l1 ++ l2) → unique_ids l1.
Proof.
  unfold unique_ids. rewrite fmap_app. by intros [? _]%NoDup_app.
Qed.

Lemma back_prefix l1 l2 :
  replies_point_back (l1 ++ l2) → replies_point_back l1.
Proof.
  intros Hback j m p Hm Ht Hp. apply (Hback j m p); [|done|].
  - by apply lookup_app_l_Some.
  - destruct (reply_to_id m) as [k|]; [|done]. simpl in *.
    by apply indexOfId_prefix.
Qed.

Lemma links_transfer ms1 ms2 :
  (λ m, (id m, reply_to_id m)) <$> ms1 = (λ m, (id m, reply_to_id m)) <$> ms2 →
  unique_ids ms1 → replies_point_back ms1 →
  unique_ids ms2 ∧ replies_point_back ms2.
Proof.
  intros Hlinks Hnd Hback.
  assert (id <$> ms1 = id <$> ms2) as Hids.
  { apply (f_equal (fmap fst)) in Hlinks.
    by rewrite <- !list_fmap_compose in Hlinks. }
  split; [unfold unique_ids; by rewrite <- Hids|].
  intros j m2 p Hm2 Ht Hp.
  assert (∃ m1, ms1 !! j = Some m1 ∧ reply_to_id m1 = reply_to_id m2)
    as (m1 & Hm1 & Hr).
  { apply (f_equal (λ l, l !! j)) in Hlinks.
    rewrite !list_lookup_fmap, Hm2 in Hlinks.
    destruct (ms1 !! j) as [m1|]; simplify_eq/=. by exists m1. }
  apply (Hback j m1 p Hm1); [by rewrite Hr|].
  rewrite Hr. destruct (reply_to_id m2) as [k|]; [|done]. simpl in *.
  unfold indexOfId in *. by rewrite Hids.
Qed.

Lemma dropLastAssistant_prefix prev :
  ∃ rest, prev = App.dropLastAssistant prev ++ rest.
Proof.
  unfold App.dropLastAssistant.
  destruct (last prev) as [m|]; [|exists []; by rewrite app_nil_r].
  case_bool_decide; [|exists []; by rewrite app_nil_r].
  exists (drop (length prev - 1) prev). by rewrite take_drop.
Qed.

(** X13. The optimistic updates of retry, regenerate and edit keep a
    conversation in the shape storage produces: if ids are unique and
    replies point backwards before the update, they still do afterwards, so
    the forest built from the updated list shows each of its messages
    exactly once. *)
Theorem optimistic_updates_keep_shape prev messageId newContent next fuel :
  unique_ids prev → replies_point_back prev →
  next = App.dropLastAssistant prev ∨
  next = Ui.regenerateFrom prev messageId ∨
  next = Ui.editAt prev messageId newContent →
  length next < fuel →
  unique_ids next ∧ replies_point_back next ∧
  ∃ l, forestNodes fuel (nodes (buildMessageTree next))
         (roots (buildMessageTree next)) = Some l ∧
       l ≡ₚ seq 0 (length next).
Proof.
  intros Hnd Hback Hnext Hfuel.
  assert (unique_ids next ∧ replies_point_back next) as [Hnd' Hback'].
  { destruct Hnext as [->|[->| ->]].
    - destruct (dropLastAssistant_prefix prev) as [rest Hrest].
      rewrite Hrest in Hnd, Hback.
      split; [by eapply unique_prefix|by eapply back_prefix].
    - unfold Ui.regenerateFrom.
      destruct (Ui.findIndex prev messageId) as [index|]; [|done].
      rewrite <- (take_drop index prev) in Hnd, Hback.
      split; [by eapply unique_prefix|by eapply back_prefix].
    - destruct (decide (messageId ∈ id <$> prev)) as [Hin|Hno].
      + destruct (proj1 (edit_shape prev messageId newContent) Hin)
          as (before & m & rest & Hprev & Heq).
        rewrite Heq. apply (links_transfer (before ++ [m])).
        * by rewrite !fmap_app.
        * rewrite Hprev, (cons_middle m), app_assoc in Hnd.
          by eapply unique_prefix.
        * rewrite Hprev, (cons_middle m), app_assoc in Hback.
          by eapply back_prefix.
      + by rewrite (proj2 (edit_shape prev messageId newContent) Hno). }
  split; [done|]. split; [done|].
  apply (forestNodes_all (build_linked _ Hnd')); [done|].
  by apply back_links_rooted.
Qed.

Lemma optimistic_updates_keep_shape_witness :
  unique_ids replyThread ∧ replies_point_back replyThread ∧
  unique_ids (Ui.regenerateFrom replyThread 3) ∧
  replies_point_back (Ui.regenerateFrom replyThread 3) ∧
  ∃ l, forestNodes 4 (nodes (buildMessageTree (Ui.regenerateFrom replyThread 3)))
         (roots (buildMessageTree (Ui.regenerateFrom replyThread 3))) = Some l ∧
       l ≡ₚ seq 0 (length (Ui.regenerateFrom replyThread 3)).
Proof.
  assert (unique_ids replyThread) as Hnd by unique_by_computation.
  assert (replies_point_back replyThread) as Hback.
  { intros [|[|[|j]]] m p Hm Ht; simpl in Hm; simplify_eq; simpl in *;
      try done; vm_compute; intros [= <-]; lia. }
  split; [done|]. split; [done|].
  apply (optimistic_updates_keep_shape replyThread 3 "" _ 4 Hnd Hback).
  - right. by left.
  - simpl. lia.
Defined.

Lemma indexOfId_snoc ms t k :
  k ≠ id t → indexOfId (ms ++ [t]) k = indexOfId ms k.
Proof.
  intros Hk. unfold indexOfId. rewrite fmap_app. simpl.
  destruct (list_find _ (_ ++ _)) as [[i x]|] eqn:E.
  - apply list_find_app_Some in E as [E|(_ & _ & E)]; [by rewrite E|].
    simpl in E. case_decide; simplify_eq/=.
  - apply list_find_app_None in E as [E _]. by rewrite E.
Qed.

(** X14. Sending keeps the shape as well when the optimistic message gets
    a fresh id: with an active thread, if ids are unique and replies point
    backwards, and the new id is neither in use nor named by any reply, the
    list after handleSendMessage has these properties too, so the forest
    built from it shows every message, the new one included, exactly once. *)
Theorem optimistic_send_keeps_shape st threadId dateNow isoNow content images
    pdfs replyToId fuel :
  App.activeThreadId st = Some threadId → threadId ≠ 0%Z →
  unique_ids (App.messages st) → replies_point_back (App.messages st) →
  dateNow ∉ id <$> App.messages st →
  (∀ m, m ∈ App.messages st → reply_to_id m ≠ Some dateNow) →
  replyToId ≠ Some dateNow →
  let next :=
    App.messages
      (fst (App.step st
              (App.SendMessage dateNow isoNow content images pdfs replyToId))) in
  length next < fuel →
  length next = S (length (App.messages st)) ∧
  unique_ids next ∧ replies_point_back next ∧
  ∃ l, forestNodes fuel (nodes (buildMessageTree next))
         (roots (buildMessageTree next)) = Some l ∧
       l ≡ₚ seq 0 (length next).
Proof.
  intros Hactive Hz Hnd Hback Hfresh Hunnamed Hreply next Hfuel.
  set (tempMsg := mkMessage dateNow threadId user content images isoNow
                    replyToId None).
  assert (next = App.messages st ++ [tempMsg]) as Hnext.
  { subst next. simpl. rewrite Hactive. apply Z.eqb_neq in Hz. rewrite Hz.
    simpl. by destruct (App.isTauriEnv st). }
  rewrite Hnext in *. clear Hnext next.
  assert (unique_ids (App.messages st ++ [tempMsg])) as Hnd'.
  { unfold unique_ids. rewrite fmap_app. apply NoDup_app.
    split; [done|]. split; [|apply NoDup_singleton].
    by intros k Hk ->%list_elem_of_singleton. }
  assert (replies_point_back (App.messages st ++ [tempMsg])) as Hback'.
  { intros j m p Hm Ht Hp.
    destruct (reply_to_id m) as [k|] eqn:Hk; [|done]. simpl in Hp.
    apply lookup_app_Some in Hm as [Hm|[Hge Hm]].
    - assert (k ≠ dateNow) as Hne.
      { intros ->. eapply Hunnamed; [|exact Hk].
        by eapply list_elem_of_lookup_2. }
      rewrite indexOfId_snoc in Hp by done.
      apply (Hback j m p Hm); [by rewrite Hk|]. by rewrite Hk.
    - destruct (j - length (App.messages st)) eqn:E; simplify_eq/=.
      assert (k ≠ dateNow) as Hne by congruence.
      rewrite indexOfId_snoc in Hp by done.
      apply indexOfId_Some in Hp as (m' & Hm'%lookup_lt_Some & _). lia. }
  split; [rewrite length_app; simpl; lia|].
  split; [done|]. split; [done|].
  apply (forestNodes_all (build_linked _ Hnd')); [done|].
  by apply back_links_rooted.
Qed.

Lemma optimistic_send_keeps_shape_witness :
  let next :=
    App.messages
      (fst (App.step App.idle
              (App.SendMessage 1700000000000 "2025-01-01T00:01:00.000Z"
                 "And then?" None None (Some 2%Z)))) in
  unique_ids (App.messages App.idle) ∧
  replies_point_back (App.messages App.idle) ∧
  length next = 3 ∧ unique_ids next ∧ replies_point_back next.
Proof.
  intros next.
  assert (unique_ids (App.messages App.idle)) as Hnd by unique_by_computation.
  assert (replies_point_back (App.messages App.idle)) as Hback.
  { intros [|[|j]] m p Hm Ht; simpl in Hm; simplify_eq; simpl in *; done. }
  split; [done|]. split; [done|].
  destruct (optimistic_send_keeps_shape App.idle 7 1700000000000
              "2025-01-01T00:01:00.000Z" "And then?" None None (Some 2%Z) 4
              eq_refl ltac:(done) Hnd Hback) as (Hlen & Hnd' & Hback' & _).
  - apply (bool_decide_unpack _). vm_compute. exact I.
  - intros m Hm. apply list_elem_of_In in Hm. simpl in Hm.
    destruct Hm as [<-|[<-|[]]]; done.
  - done.
  - simpl. lia.
  - split; [exact Hlen|]. split; [exact Hnd'|exact Hback'].
Defined.

(** * Further properties of the context assembler *)



Section CapFacts.
Variable getTime : string → Z.

(** X16. The cap keeps the latest messages: the sorted pool splits into the
    dropped messages followed by the kept ones, none of the dropped ones is
    later than a kept one, exactly min(20, pool size) are kept, and a pool
    of at most twenty messages is kept whole. *)
Theorem cap_keeps_latest (pool : list Message) :
  let sorted := App.sortByCreatedAt getTime pool in
  let recent := App.recentMessages getTime pool in
  let dropped := take (length sorted - 20) sorted in
  sorted = dropped ++ recent ∧
  length recent = length pool `min` 20 ∧
  (∀ a b, a ∈ dropped → b ∈ recent → App.byCreatedAt getTime a b) ∧
  (length pool ≤ 20 → recent ≡ₚ pool).
Proof.
  intros sorted recent dropped.
  assert (sorted = dropped ++ recent) as Hsplit.
  { subst dropped recent. unfold App.recentMessages, App.slice_last.
    fold sorted. by rewrite take_drop. }
  assert (length sorted = length pool) as Hlen.
  { subst sorted. by rewrite (sortByCreatedAt_perm getTime pool). }
  split; [done|]. split; [|split].
  - subst recent. unfold App.recentMessages, App.slice_last. fold sorted.
    rewrite length_drop. lia.
  - intros a b Ha Hb.
    pose proof (sortByCreatedAt_sorted getTime pool) as Hsorted.
    fold sorted in Hsorted. rewrite Hsplit in Hsorted.
    by eapply (StronglySorted_app_1_elem_of _ _ _ _ _ Hsorted).
  - intros Hshort. subst recent. unfold App.recentMessages.
    rewrite slice_last_short by (fold sorted; lia).
    apply sortByCreatedAt_perm.
Qed.

(** X17. The sort is stable: among the messages of the pool that carry one
    and the same timestamp, the sorted pool has exactly those, in the order
    the pool had them. *)
Theorem sort_keeps_order_of_ties (pool : list Message) (t : Z) :
  filter (λ m, getTime (created_at m) = t) (App.sortByCreatedAt getTime pool)
  = filter (λ m, getTime (created_at m) = t) pool.
Proof. apply sortByCreatedAt_stable. Qed.
End CapFacts.

Lemma cap_keeps_latest_witness :
  let pool := App.sampleLog 1 ++ App.sampleLog 2 ++ App.sampleLog 3 in
  length (App.recentMessages App.sampleClock pool) = 20 ∧
  ∀ a b, a ∈ take 4 (App.sortByCreatedAt App.sampleClock pool) →
         b ∈ App.recentMessages App.sampleClock pool →
         App.byCreatedAt App.sampleClock a b.
Proof.
  intros pool.
  destruct (cap_keeps_latest App.sampleClock pool) as (_ & Hlen & Hlate & _).
  split; [exact Hlen|exact Hlate].
Defined.

(** * Choosing source threads *)

Lemma toggleThread_elem (prev : list Z) (threadId x : Z) :
  x ∈ Ui.toggleThread prev threadId ↔
  (x = threadId ∧ threadId ∉ prev) ∨ (x ≠ threadId ∧ x ∈ prev).
Proof.
  unfold Ui.toggleThread. case_bool_decide as Hin.
  - rewrite list_elem_of_filter. split.
    + intros [Hne Hx]. by right.
    + intros [[_ Hno]|[Hne Hx]]; [done|by split].
  - rewrite elem_of_app, list_elem_of_singleton. split.
    + intros [Hx| ->]; [|by left].
      right. split; [|done]. by intros ->.
    + intros [[-> _]|[_ Hx]]; [by right|by left].
Qed.

Lemma toggleThread_NoDup (prev : list Z) (threadId : Z) :
  NoDup prev → NoDup (Ui.toggleThread prev threadId).
Proof.
  intros Hnd. unfold Ui.toggleThread. case_bool_decide as Hin.
  - by apply NoDup_filter.
  - apply NoDup_app. split; [done|]. split; [|apply NoDup_singleton].
    intros x Hx ->%list_elem_of_singleton. done.
Qed.

Lemma filter_out_absent (l : list Z) (x : Z) :
  x ∉ l → filter (λ tid, tid ≠ x) l = l.
Proof.
  induction l as [|y l IH]; [done|].
  intros Hno. rewrite not_elem_of_cons in Hno. destruct Hno as [Hne Hno].
  rewrite filter_cons_True by done. by rewrite IH.
Qed.

Lemma filter_out_present (l : list Z) (x : Z) :
  NoDup l → x ∈ l → filter (λ tid, tid ≠ x) l ++ [x] ≡ₚ l.
Proof.
  induction l as [|y l IH]; intros Hnd Hin; [by apply elem_of_nil in Hin|].
  apply NoDup_cons in Hnd as [Hy Hnd].
  destruct (decide (y = x)) as [->|Hne].
  - rewrite filter_cons_False by (by intros H; apply H).
    rewrite filter_out_absent by done.
    by rewrite Permutation_app_comm.
  - rewrite filter_cons_True by done.
    apply elem_of_cons in Hin as [->|Hin]; [done|].
    simpl. by rewrite IH.
Qed.

(** X18. One click on a thread row of the context dialog flips that thread
    in the selection and leaves every other thread as it was; a selection
    without repetition stays without repetition; clicking twice on a thread
    that was not selected restores the selection, and clicking twice on a
    selected one moves it to the end. *)
Theorem toggle_flips_one_thread (prev : list Z) (threadId : Z) :
  NoDup prev →
  NoDup (Ui.toggleThread prev threadId) ∧
  (threadId ∈ Ui.toggleThread prev threadId ↔ threadId ∉ prev) ∧
  (∀ other, other ≠ threadId →
            (other ∈ Ui.toggleThread prev threadId ↔ other ∈ prev)) ∧
  (threadId ∉ prev →
   Ui.toggleThread (Ui.toggleThread prev threadId) threadId = prev) ∧
  (threadId ∈ prev →
   Ui.toggleThread (Ui.toggleThread prev threadId) threadId
   = filter (λ tid, tid ≠ threadId) prev ++ [threadId] ∧
   Ui.toggleThread (Ui.toggleThread prev threadId) threadId ≡ₚ prev).
Proof.
  intros Hnd. split; [by apply toggleThread_NoDup|].
  split; [|split; [|split]].
  - rewrite toggleThread_elem. intuition congruence.
  - intros other Hne. rewrite toggleThread_elem. intuition congruence.
  - intros Hno.
    assert (Ui.toggleThread prev threadId = prev ++ [threadId]) as ->.
    { unfold Ui.toggleThread. by rewrite bool_decide_eq_false_2. }
    unfold Ui.toggleThread. rewrite bool_decide_eq_true_2.
    + rewrite filter_app, filter_out_absent by done.
      rewrite filter_cons_False by (by intros H; apply H).
      by rewrite filter_nil, app_nil_r.
    + apply elem_of_app. right. by apply list_elem_of_singleton.
  - intros Hin.
    assert (Ui.toggleThread prev threadId
            = filter (λ tid, tid ≠ threadId) prev) as ->.
    { unfold Ui.toggleThread. by rewrite bool_decide_eq_true_2. }
    assert (Ui.toggleThread (filter (λ tid, tid ≠ threadId) prev) threadId
            = filter (λ tid, tid ≠ threadId) prev ++ [threadId]) as ->.
    { unfold Ui.toggleThread. rewrite bool_decide_eq_false_2; [done|].
      rewrite list_elem_of_filter. by intros [Hne _]. }
    split; [done|]. by apply filter_out_present.
Qed.

Lemma toggle_flips_one_thread_witness :
  Ui.toggleThread (Ui.toggleThread [4; 7; 9]%Z 7%Z) 7%Z = [4; 9; 7]%Z ∧
  Ui.toggleThread (Ui.toggleThread [4; 7; 9]%Z 5%Z) 5%Z = [4; 7; 9]%Z.
Proof.
  assert (NoDup [4; 7; 9]%Z) as Hnd by (apply (bool_decide_unpack _); exact I).
  split.
  - destruct (toggle_flips_one_thread [4; 7; 9]%Z 7%Z Hnd)
      as (_ & _ & _ & _ & Htwice).
    destruct Htwice as [Heq _]; [|exact Heq].
    apply (bool_decide_unpack _). exact I.
  - destruct (toggle_flips_one_thread [4; 7; 9]%Z 5%Z Hnd)
      as (_ & _ & _ & Hback & _).
    apply Hback. apply (bool_decide_unpack _). exact I.
Defined.

Lemma toggle_run_elem (clicks : list Z) : ∀ (sel : list Z) (threadId : Z),
  bool_decide (threadId ∈ foldl Ui.toggleThread sel clicks)
  = xorb (bool_decide (threadId ∈ sel))
         (Nat.odd (length (filter (λ c, c = threadId) clicks))).
Proof.
  induction clicks as [|c clicks IH]; intros sel threadId.
  - simpl. by rewrite xorb_false_r.
  - cbn [foldl]. rewrite IH.
    destruct (decide (c = threadId)) as [->|Hne].
    + rewrite filter_cons_True by done. cbn [length].
      rewrite Nat.odd_succ, <- Nat.negb_odd.
      assert (bool_decide (threadId ∈ Ui.toggleThread sel threadId)
              = negb (bool_decide (threadId ∈ sel))) as ->.
      { pose proof (toggleThread_elem sel threadId threadId) as Hel.
        repeat case_bool_decide; simpl; intuition congruence. }
      by destruct (bool_decide _), (Nat.odd _).
    + rewrite filter_cons_False by done.
      f_equal. apply bool_decide_ext. rewrite toggleThread_elem.
      intuition congruence.
Qed.

(** X19. After any series of clicks in a freshly opened context dialog the
    selection holds no thread twice, and it holds exactly the threads that
    were clicked an odd number of times. *)
Theorem selection_is_odd_clicks (clicks : list Z) :
  NoDup (foldl Ui.toggleThread [] clicks) ∧
  ∀ threadId,
    threadId ∈ foldl Ui.toggleThread [] clicks ↔
    Nat.odd (length (filter (λ c, c = threadId) clicks)) = true.
Proof.
  split.
  - assert (∀ sel, NoDup sel → NoDup (foldl Ui.toggleThread sel clicks)) as H.
    { induction clicks as [|c clicks IH]; intros sel Hnd; [done|].
      cbn [foldl]. by apply IH, toggleThread_NoDup. }
    apply H, NoDup_nil_2.
  - intros threadId.
    pose proof (toggle_run_elem clicks [] threadId) as H.
    rewrite (bool_decide_eq_false_2 (threadId ∈ [])) in H
      by apply not_elem_of_nil.
    rewrite xorb_false_l in H. rewrite <- H.
    by rewrite bool_decide_eq_true.
Qed.

(** * The composer *)

(** X20. Pressing Enter without Shift does what submitting the form does,
    in every state of the composer; Enter with Shift and any other key send
    nothing and leave the composer alone, and so does a submit while a
    response is streaming. A composer holding an attachment sends even
    when its text is blank. *)
Theorem enter_is_submit (trim : string → string) (isStreaming : bool)
    (c : Composer.Composer) :
  Composer.handleKeyDown trim "Enter" false isStreaming c
  = Composer.handleSubmit trim isStreaming c ∧
  (∀ key shiftKey, key ≠ "Enter"%string ∨ shiftKey = true →
     Composer.handleKeyDown trim key shiftKey isStreaming c = (c, None)) ∧
  Composer.handleSubmit trim true c = (c, None) ∧
  (0 < length (Composer.attachments c) →
   Composer.handleSubmit trim false c
   = (Composer.cleared, Some (Composer.sendArgs c))).
Proof.
  split; [|split; [|split]].
  - unfold Composer.handleKeyDown, Composer.handleSubmit.
    rewrite bool_decide_eq_true_2 by done. simpl.
    destruct isStreaming; repeat case_bool_decide; simpl; try done; lia.
  - intros key shiftKey [Hkey| ->]; unfold Composer.handleKeyDown.
    + by rewrite bool_decide_eq_false_2.
    + by rewrite andb_false_r.
  - unfold Composer.handleSubmit. by rewrite orb_true_r.
  - intros Hatt. unfold Composer.handleSubmit.
    rewrite (bool_decide_eq_false_2 (length _ = 0)) by lia.
    by rewrite andb_false_r.
Qed.

Lemma enter_is_submit_witness :
  Composer.handleSubmit (λ s, s) false
    (Composer.mkComposer ""
       [Composer.mkAttachment Composer.image "data:image/png;base64,AAAA" "a.png"]
       None)
  = (Composer.cleared,
     Some (Composer.mkSendArgs "" (Some [Some "AAAA"%string]) None None)).
Proof.
  destruct (enter_is_submit (λ s, s) false
              (Composer.mkComposer ""
                 [Composer.mkAttachment Composer.image
                    "data:image/png;base64,AAAA" "a.png"] None))
    as (_ & _ & _ & Hsend).
  rewrite Hsend; [reflexivity|]. simpl. lia.
Defined.

Lemma splitComma_nonempty (s : string) : Composer.splitComma s ≠ [].
Proof.
  destruct s as [|a s]; simpl; [done|].
  destruct (Composer.splitComma s); [done|]. by destruct (Ascii.eqb a ",").
Qed.

Lemma splitComma_plain (s : string) :
  ","%char ∉ list_ascii_of_string s → Composer.splitComma s = [s].
Proof.
  induction s as [|a s IH]; simpl; [done|].
  intros Hno. rewrite not_elem_of_cons in Hno. destruct Hno as [Hne Hno].
  rewrite IH by done.
  destruct (Ascii.eqb_spec a ","); [by subst|done].
Qed.

Lemma splitComma_first (header rest : string) :
  ","%char ∉ list_ascii_of_string header →
  Composer.splitComma (header ++ String "," rest)%string
  = header :: Composer.splitComma rest.
Proof.
  induction header as [|a header IH]; intros Hno.
  - change (Composer.splitComma (String "," rest)
            = ""%string :: Composer.splitComma rest).
    simpl. pose proof (splitComma_nonempty rest).
    by destruct (Composer.splitComma rest).
  - simpl in Hno. rewrite not_elem_of_cons in Hno. destruct Hno as [Hne Hno].
    rewrite string_app_cons. simpl. rewrite IH by done.
    destruct (Ascii.eqb_spec a ","); [by subst|done].
Qed.

(** X21. What [content.split(',')[1]] sends for an attachment: from a data
    URL, a header without comma followed by a comma and a payload without
    comma, exactly the payload; in general the text between the first and
    the second comma; and nothing (undefined) when the content has no
    comma. *)
Theorem data_url_payload (header payload : string) :
  ","%char ∉ list_ascii_of_string header →
  (","%char ∉ list_ascii_of_string payload →
   Composer.splitComma (header ++ String "," payload)%string !! 1
   = Some payload) ∧
  (∀ more, ","%char ∉ list_ascii_of_string payload →
     Composer.splitComma
       (header ++ String "," (payload ++ String "," more))%string !! 1
     = Some payload) ∧
  Composer.splitComma header !! 1 = None.
Proof.
  intros Hheader. split; [|split].
  - intros Hpayload. rewrite splitComma_first by done.
    by rewrite splitComma_plain.
  - intros more Hpayload. rewrite !splitComma_first by done. done.
  - by rewrite splitComma_plain.
Qed.

Lemma data_url_payload_witness :
  Composer.splitComma ("data:image/png;base64" ++ String "," "iVBORw0KGgo=")%string
    !! 1 = Some "iVBORw0KGgo="%string.
Proof.
  refine (proj1 (data_url_payload "data:image/png;base64" "iVBORw0KGgo=" _) _);
    apply (bool_decide_unpack _); vm_compute; exact I.
Defined.

(** X22. Every attachment is sent exactly once: the image array and the pdf
    array together have as many entries as the composer has attachments,
    and the image argument is undefined exactly when no attachment is an
    image. *)
Theorem attachments_sent_once (c : Composer.Composer) :
  length (Composer.payloads Composer.image (Composer.attachments c))
  + length (Composer.payloads Composer.pdf (Composer.attachments c))
  = length (Composer.attachments c) ∧
  (Composer.sendImages (Composer.sendArgs c) = None ↔
   ∀ a, a ∈ Composer.attachments c → Composer.att_type a = Composer.pdf).
Proof.
  unfold Composer.sendArgs, Composer.payloads, Composer.nonEmpty.
  cbn [Composer.sendImages]. rewrite !length_fmap.
  induction (Composer.attachments c) as [|a atts [IHlen IHnone]].
  - split; [done|]. split; [|done]. intros _ a Ha.
    by apply elem_of_nil in Ha.
  - destruct (Composer.att_type a) eqn:Hty.
    + rewrite filter_cons_True, filter_cons_False by (by rewrite Hty).
      cbn [length]. split; [lia|].
      rewrite bool_decide_eq_true_2 by lia. split; [done|].
      intros Hall. specialize (Hall a (list_elem_of_here _ _)). congruence.
    + rewrite filter_cons_False, filter_cons_True by (by rewrite Hty).
      cbn [length]. split; [lia|].
      rewrite IHnone. split.
      * intros Hall b [->|Hb]%elem_of_cons; [done|by apply Hall].
      * intros Hall b Hb. apply Hall. by right.
Qed.

Lemma filterIndex_remove {A} (index : nat) (l : list A) : ∀ k,
  Composer.filterIndex (λ i, negb (i =? index)) k l
  = if decide (index < k) then l
    else take (index - k) l ++ drop (S (index - k)) l.
Proof.
  induction l as [|x l IH]; intros k.
  - simpl. destruct (decide _); [done|]. by rewrite take_nil.
  - cbn [Composer.filterIndex]. rewrite IH.
    destruct (Nat.eqb_spec k index) as [->|Hne]; cbn [negb].
    + rewrite decide_True by lia. rewrite decide_False by lia.
      by rewrite Nat.sub_diag.
    + destruct (decide (index < k)).
      * by rewrite decide_True by lia.
      * rewrite decide_False by lia.
        replace (index - k) with (S (index - S k)) by lia. done.
Qed.

(** X23. Removing an attachment by its position drops exactly that entry
    and keeps the others in order; a position beyond the list changes
    nothing. *)
Theorem remove_attachment_at (index : nat) (prev : list Composer.Attachment) :
  Composer.removeAttachment index prev = take index prev ++ drop (S index) prev ∧
  (length prev ≤ index → Composer.removeAttachment index prev = prev) ∧
  (index < length prev →
   S (length (Composer.removeAttachment index prev)) = length prev).
Proof.
  assert (Composer.removeAttachment index prev
          = take index prev ++ drop (S index) prev) as Heq.
  { unfold Composer.removeAttachment. rewrite filterIndex_remove.
    rewrite decide_False by lia. by rewrite Nat.sub_0_r. }
  split; [done|]. rewrite Heq. split.
  - intros Hout. rewrite take_ge, drop_ge by lia. by rewrite app_nil_r.
  - intros Hin. rewrite length_app, length_take, length_drop. lia.
Qed.

Lemma remove_attachment_at_witness :
  Composer.removeAttachment 5
    [Composer.mkAttachment Composer.pdf "data:application/pdf;base64,JVBE" "a.pdf"]
  = [Composer.mkAttachment Composer.pdf "data:application/pdf;base64,JVBE" "a.pdf"].
Proof.
  apply (proj1 (proj2 (remove_attachment_at 5
    [Composer.mkAttachment Composer.pdf "data:application/pdf;base64,JVBE"
       "a.pdf"]))).
  simpl. lia.
Defined.

(** * The thread list and the confirmation dialog *)

(** X24. Renaming keeps the thread list as it is apart from titles: same
    ids in the same order, same creation times, prompts and archive flags;
    every thread with the given id gets the new title and every other
    thread keeps its own; an id that is not in the list changes nothing;
    and of two renamings of one thread the later one wins. *)
Theorem rename_changes_titles_only (threads : list Thread) (threadId : Z)
    (newTitle : string) :
  thread_ident <$> Ui.renameIn threads threadId newTitle
  = thread_ident <$> threads ∧
  (λ t, (thread_created_at t, system_prompt t, is_archived t))
    <$> Ui.renameIn threads threadId newTitle
  = (λ t, (thread_created_at t, system_prompt t, is_archived t)) <$> threads ∧
  title <$> Ui.renameIn threads threadId newTitle
  = (λ t, if bool_decide (thread_ident t = threadId) then newTitle
          else title t) <$> threads ∧
  (threadId ∉ thread_ident <$> threads →
   Ui.renameIn threads threadId newTitle = threads) ∧
  (∀ earlier,
     Ui.renameIn (Ui.renameIn threads threadId earlier) threadId newTitle
     = Ui.renameIn threads threadId newTitle).
Proof.
  unfold Ui.renameIn. split; [|split; [|split; [|split]]].
  - rewrite <- list_fmap_compose. apply list_fmap_ext.
    intros i t _. simpl. by case_bool_decide.
  - rewrite <- list_fmap_compose. apply list_fmap_ext.
    intros i t _. simpl. by case_bool_decide.
  - rewrite <- list_fmap_compose. apply list_fmap_ext.
    intros i t _. simpl. by case_bool_decide.
  - intros Hno. rewrite <- (list_fmap_id threads) at 2.
    apply list_fmap_ext. intros i t Ht. simpl.
    rewrite bool_decide_eq_false_2; [done|].
    intros <-. apply Hno, list_elem_of_fmap. exists t. split; [done|].
    by eapply list_elem_of_lookup_2.
  - intros earlier. rewrite <- list_fmap_compose. apply list_fmap_ext.
    intros i t _. simpl.
    destruct (decide (thread_ident t = threadId)) as [Hid|Hid].
    + by rewrite !(bool_decide_eq_true_2 (thread_ident t = threadId)) by done.
    + by rewrite !(bool_decide_eq_false_2 (thread_ident t = threadId)) by done.
Qed.

Lemma rename_changes_titles_only_witness :
  Ui.renameIn [mkThread 1 "first" "2025-01-01T00:00:00.000Z" None false]
    7 "renamed"
  = [mkThread 1 "first" "2025-01-01T00:00:00.000Z" None false].
Proof.
  apply (rename_changes_titles_only
           [mkThread 1 "first" "2025-01-01T00:00:00.000Z" None false]
           7 "renamed").
  apply (bool_decide_unpack _). vm_compute. exact I.
Defined.

Lemma shellStep_neverArmed sh ev :
  Ui.neverArmed sh →
  Ui.neverArmed (fst (Ui.shellStep sh ev)) ∧
  Forall (λ c, ¬ Ui.isDeleteThread c) (snd (Ui.shellStep sh ev)).
Proof.
  intros Hinv. unfold Ui.neverArmed in *.
  destruct ev as [t|m| | |t a [[]|e]|t [[]|e]]; cbn [Ui.shellStep].
  - split; [|constructor]. simpl. by intros _ t'.
  - destruct (Ui.shellActive sh) as [t|]; [|by split; [|constructor]].
    destruct (truthy (Some t)); split; try done; try constructor.
  - destruct (Ui.isOpen (Ui.modalConfig sh)) eqn:Hopen;
      [|split; [simpl; by rewrite Hopen|constructor]].
    specialize (Hinv eq_refl).
    destruct (Ui.onConfirm (Ui.modalConfig sh)) as [|t|t|t m] eqn:Hc.
    + split; [simpl; by rewrite Hc|constructor].
    + split; [done|constructor].
    + by destruct (Hinv t).
    + split; [simpl; by rewrite Hc|].
      constructor; [|constructor]. by intros [].
  - split; [done|constructor].
  - case_bool_decide; split; try done; constructor.
  - split; [done|]. constructor; [|constructor]. by intros [].
  - split; [done|]. constructor; [|constructor]. by intros [].
  - split; [done|]. constructor; [|constructor]. by intros [].
Qed.

Lemma shellRun_cons sh ev rest :
  Ui.shellRun sh (ev :: rest)
  = ((Ui.shellRun (fst (Ui.shellStep sh ev)) rest).1,
     snd (Ui.shellStep sh ev)
     ++ (Ui.shellRun (fst (Ui.shellStep sh ev)) rest).2).
Proof.
  cbn [Ui.shellRun]. destruct (Ui.shellStep sh ev) as [sh1 c1].
  cbn [fst snd]. by destruct (Ui.shellRun sh1 rest).
Qed.

(** X25. Deleting a chat from the sidebar never reaches the backend: from a
    closed dialog, whatever is clicked and in whatever order, no
    [delete_thread] call is ever issued, because the closure that would
    issue it is stored in a dialog that is closed in the same update. So,
    as long as no such call settles, the thread list stays as it is. *)
Theorem sidebar_delete_never_invoked (sh : Ui.Shell) (evs : list Ui.ShellEvent) :
  Ui.isOpen (Ui.modalConfig sh) = false →
  Forall (λ c, ¬ Ui.isDeleteThread c) (snd (Ui.shellRun sh evs)) ∧
  (Forall (λ ev, ∀ t a r, ev ≠ Ui.DeleteThreadSettled t a r) evs →
   Ui.shellThreads (fst (Ui.shellRun sh evs)) = Ui.shellThreads sh).
Proof.
  intros Hclosed.
  assert (Ui.neverArmed sh) as Hinv.
  { unfold Ui.neverArmed. by rewrite Hclosed. }
  clear Hclosed. revert sh Hinv.
  induction evs as [|ev evs IH]; intros sh Hinv.
  - split; [constructor|done].
  - rewrite shellRun_cons. cbn [fst snd].
    destruct (shellStep_neverArmed sh ev Hinv) as [Hinv' Hcmd].
    destruct (IH _ Hinv') as [IHcmd IHthreads].
    split; [by apply Forall_app|].
    intros [Hev Hevs]%Forall_cons. rewrite IHthreads by done.
    destruct ev as [t|m| | |t a r|t [[]|e]]; cbn [Ui.shellStep]; try done.
    + destruct (Ui.shellActive sh) as [t|]; [|done].
      by destruct (truthy (Some t)).
    + destruct (Ui.isOpen (Ui.modalConfig sh)); [|done].
      by destruct (Ui.onConfirm (Ui.modalConfig sh)).
    + by destruct (Hev t a r).
Qed.

Lemma sidebar_delete_never_invoked_witness :
  Ui.shellRun
    (Ui.mkShell [mkThread 3 "chat" "2025-01-01T00:00:00.000Z" None false]
       (Some 3%Z) [] Ui.initialModal)
    [Ui.SidebarDelete 3; Ui.Confirm; Ui.Confirm]
  = (Ui.mkShell [mkThread 3 "chat" "2025-01-01T00:00:00.000Z" None false]
       (Some 3%Z) []
       (Ui.closeModal (Ui.deleteChatModal (Ui.confirmDeleteThread 3))), []) ∧
  Forall (λ c, ¬ Ui.isDeleteThread c)
    (snd (Ui.shellRun
       (Ui.mkShell [mkThread 3 "chat" "2025-01-01T00:00:00.000Z" None false]
          (Some 3%Z) [] Ui.initialModal)
       [Ui.SidebarDelete 3; Ui.Confirm; Ui.Confirm])).
Proof.
  split; [reflexivity|].
  apply (sidebar_delete_never_invoked
           (Ui.mkShell [mkThread 3 "chat" "2025-01-01T00:00:00.000Z" None false]
              (Some 3%Z) [] Ui.initialModal)
           [Ui.SidebarDelete 3; Ui.Confirm; Ui.Confirm]).
  reflexivity.
Defined.

(** X26. Deleting a message does reach the backend: with an active thread,
    choosing delete and confirming issues one [delete_message] call for
    that thread and message; cancelling first issues none; when the call
    resolves the dialog is closed and the thread's messages are reloaded,
    and when it rejects the dialog is closed and an alert is shown. Without
    an active thread the dialog is not even opened. *)
Theorem message_delete_invoked (sh : Ui.Shell) (messageId : Z) :
  (∀ threadId, Ui.shellActive sh = Some threadId → threadId ≠ 0%Z →
     snd (Ui.shellRun sh [Ui.DeleteMessage messageId; Ui.Confirm])
     = [Ui.invoke_delete_message threadId messageId] ∧
     snd (Ui.shellRun sh [Ui.DeleteMessage messageId; Ui.Cancel; Ui.Confirm])
     = [] ∧
     (∀ r, let '(sh', cmds) :=
             Ui.shellRun sh [Ui.DeleteMessage messageId; Ui.Confirm;
                             Ui.DeleteMessageSettled threadId r] in
           Ui.isOpen (Ui.modalConfig sh') = false ∧
           Ui.shellThreads sh' = Ui.shellThreads sh ∧
           cmds = Ui.invoke_delete_message threadId messageId
                  :: match r with
                     | App.Ok _ => [Ui.load_messages threadId]
                     | App.Rejected e =>
                         [Ui.alert ("Failed to delete message: " ++ e)%string]
                     end)) ∧
  (truthy (Ui.shellActive sh) = false →
   ∀ evs, Ui.shellRun sh (Ui.DeleteMessage messageId :: evs)
          = Ui.shellRun sh evs).
Proof.
  split.
  - intros threadId Hactive Hne.
    assert (truthy (Some threadId) = true) as Htruthy.
    { unfold truthy. by apply negb_true_iff, Z.eqb_neq. }
    split; [|split].
    + cbn [Ui.shellRun Ui.shellStep]. by rewrite Hactive, Htruthy.
    + cbn [Ui.shellRun Ui.shellStep]. by rewrite Hactive, Htruthy.
    + intros r. cbn [Ui.shellRun Ui.shellStep]. rewrite Hactive, Htruthy.
      simpl. by destruct r as [[]|e].
  - intros Hfalsy evs. rewrite shellRun_cons.
    cbn [Ui.shellStep]. destruct (Ui.shellActive sh) as [t|].
    + rewrite Hfalsy. simpl. by destruct (Ui.shellRun sh evs).
    + simpl. by destruct (Ui.shellRun sh evs).
Qed.

Lemma message_delete_invoked_witness :
  snd (Ui.shellRun (Ui.mkShell [] (Some 3%Z) hiHello Ui.initialModal)
         [Ui.DeleteMessage 2; Ui.Confirm])
  = [Ui.invoke_delete_message 3 2].
Proof.
  apply (proj1 (message_delete_invoked
                  (Ui.mkShell [] (Some 3%Z) hiHello Ui.initialModal) 2)
               3%Z eq_refl).
  lia.
Defined.

(** * Which messages the tree shows *)

(** X1. With unique ids the built forest holds exactly the messages whose
    chain of working reply links ends at a root, each of them once, and so
    at most as many nodes as there are messages; a message on a reply cycle,
    or replying into one, is in no tree. *)
Theorem forest_holds_rooted_messages fuel messages :
  unique_ids messages → length messages < fuel →
  ∃ l, forestNodes fuel (nodes (buildMessageTree messages))
         (roots (buildMessageTree messages)) = Some l ∧
       NoDup l ∧ (∀ j, j ∈ l ↔ ∃ d, rooted messages j d) ∧
       l ⊆ seq 0 (length messages) ∧ length l ≤ length messages.
Proof.
  intros Hnd Hfuel.
  destruct (forestNodes_roots (build_linked _ Hnd) fuel Hfuel)
    as (l & Hl & Hnodup & Hin).
  exists l. split; [done|]. split; [done|]. split; [done|].
  assert (l ⊆ seq 0 (length messages)) as Hsub.
  { intros j [d Hd]%Hin. apply elem_of_seq.
    pose proof (rootedBy_lt (build_linked _ Hnd) _ _ Hd). lia. }
  split; [done|].
  rewrite <- (length_seq (length messages) 0).
  by apply submseteq_length, NoDup_submseteq.
Qed.

Lemma forest_holds_rooted_messages_witness :
  ∃ l, forestNodes 5 (nodes (buildMessageTree cycleAndThread))
         (roots (buildMessageTree cycleAndThread)) = Some l ∧
       (∀ j, j ∈ l ↔ ∃ d, rooted cycleAndThread j d) ∧ length l ≤ 4.
Proof.
  destruct (forest_holds_rooted_messages 5 cycleAndThread)
    as (l & Hl & _ & Hin & _ & Hlen).
  - unique_by_computation.
  - simpl. lia.
  - exists l. split; [exact Hl|]. split; [exact Hin|exact Hlen].
Defined.
